(** * CRE 10-year return model ([app.py]): a shallow embedding

    The script computes a fixed-payment amortization schedule, a ten-year
    NOI / cash-flow / DSCR projection, an exit value and two return
    metrics.  Its numbers are binary64 values held either as Python
    [float]s or as [numpy.float64] scalars.

    Numbers are modelled by [num]: the IEEE-754 special values (signed
    zero, the two infinities, NaN) together with the finite values, the
    latter carried as exact rationals.  Rounding is not modelled: a finite
    operation returns the exact rational result.  Everything else follows
    IEEE-754 and the two division disciplines of the source: a Python
    [float / float] raises [ZeroDivisionError] on a zero divisor, a
    division in which a [numpy.float64] takes part returns an infinity or
    NaN. *)

From Stdlib Require Import QArith Qpower ZArith List Bool Lia Lqa.
From Stdlib Require Import Field Qfield.
Import ListNotations.

Open Scope Q_scope.

(** ** Numbers *)

Module Num.

(** [Fin q] is the finite value [q]; [Fin q] with [q == 0] is [+0.0].
    [NegZero] is [-0.0]. *)
Inductive num : Type :=
| Fin (q : Q)
| NegZero
| PInf
| NInf
| NaN.

Definition Qltb (a b : Q) : bool := negb (Qle_bool b a).

Definition is_inf (x : num) : bool :=
  match x with PInf | NInf => true | _ => false end.

Definition is_zero (x : num) : bool :=
  match x with
  | Fin q => Qeq_bool q 0
  | NegZero => true
  | _ => false
  end.

(** The sign bit. *)
Definition signbit (x : num) : bool :=
  match x with
  | Fin q => Qltb q 0
  | NegZero | NInf => true
  | PInf | NaN => false
  end.

Definition signed_zero (s : bool) : num := if s then NegZero else Fin 0.
Definition signed_inf (s : bool) : num := if s then NInf else PInf.

Definition of_Z (z : Z) : num := Fin (inject_Z z).

(** Unary minus flips the sign bit. *)
Definition fneg (x : num) : num :=
  match x with
  | Fin q => if Qeq_bool q 0 then NegZero else Fin (- q)
  | NegZero => Fin 0
  | PInf => NInf
  | NInf => PInf
  | NaN => NaN
  end.

(** Addition, round-to-nearest: an exact zero sum of finite operands is
    [+0.0] unless both operands are [-0.0]. *)
Definition fadd (x y : num) : num :=
  match x, y with
  | NaN, _ | _, NaN => NaN
  | PInf, NInf | NInf, PInf => NaN
  | PInf, _ | _, PInf => PInf
  | NInf, _ | _, NInf => NInf
  | NegZero, NegZero => NegZero
  | NegZero, Fin b => Fin b
  | Fin a, NegZero => Fin a
  | Fin a, Fin b => Fin (a + b)
  end.

Definition fsub (x y : num) : num := fadd x (fneg y).

Definition fmul (x y : num) : num :=
  match x, y with
  | NaN, _ | _, NaN => NaN
  | Fin a, Fin b =>
      if Qeq_bool (a * b) 0
      then signed_zero (xorb (signbit x) (signbit y))
      else Fin (a * b)
  | _, _ =>
      let s := xorb (signbit x) (signbit y) in
      if is_inf x || is_inf y
      then (if is_zero x || is_zero y then NaN else signed_inf s)
      else signed_zero s
  end.

(** IEEE division, as [numpy] performs it: no exception, a zero divisor
    gives an infinity (or NaN for [0/0]). *)
Definition fdiv (x y : num) : num :=
  match x, y with
  | NaN, _ | _, NaN => NaN
  | _, _ =>
      let s := xorb (signbit x) (signbit y) in
      if is_inf x then (if is_inf y then NaN else signed_inf s)
      else if is_inf y then signed_zero s
      else if is_zero y then (if is_zero x then NaN else signed_inf s)
      else if is_zero x then signed_zero s
      else match x, y with
           | Fin a, Fin b => Fin (a / b)
           | _, _ => NaN
           end
  end.

(** [x > y] on binary64 values; false whenever a NaN takes part. *)
Definition fgt (x y : num) : bool :=
  match x, y with
  | NaN, _ | _, NaN => false
  | PInf, PInf => false
  | PInf, _ => true
  | _, PInf => false
  | NInf, _ => false
  | _, NInf => true
  | Fin a, Fin b => Qltb b a
  | Fin a, NegZero => Qltb 0 a
  | NegZero, Fin b => Qltb b 0
  | NegZero, NegZero => false
  end.

(** [x == y] on binary64 values: the two zeros are equal, NaN is equal to
    nothing. *)
Definition feqb (x y : num) : bool :=
  match x, y with
  | NaN, _ | _, NaN => false
  | PInf, PInf | NInf, NInf => true
  | Fin a, Fin b => Qeq_bool a b
  | Fin a, NegZero | NegZero, Fin a => Qeq_bool a 0
  | NegZero, NegZero => true
  | _, _ => false
  end.

(** [x ** n] for an integer exponent, after C's [pow]. *)
Definition fpow (x : num) (n : Z) : num :=
  if (n =? 0)%Z then Fin 1
  else
    match x with
    | NaN => NaN
    | Fin q =>
        if Qeq_bool q 0
        then (if (0 <? n)%Z then Fin 0 else PInf)
        else Fin (q ^ n)
    | NegZero =>
        if (0 <? n)%Z then signed_zero (Z.odd n) else signed_inf (Z.odd n)
    | PInf => if (0 <? n)%Z then PInf else Fin 0
    | NInf =>
        if (0 <? n)%Z then signed_inf (Z.odd n) else signed_zero (Z.odd n)
    end.

(** *** The rational a number stands for *)

Definition finite (x : num) : bool :=
  match x with Fin _ | NegZero => true | _ => false end.

Definition to_Q (x : num) : Q :=
  match x with Fin q => q | _ => 0 end.

(** [x ~= q]: [x] is finite and its value is the rational [q]. *)
Definition represents (x : num) (q : Q) : Prop :=
  finite x = true /\ to_Q x == q.

End Num.
Export Num.

Notation "x ~= q" := (represents x q) (at level 70, no associativity).

(** ** Python values and control *)

(** The exceptions that can surface in the script.  [LibraryError] stands
    for whatever [numpy_financial.irr] may raise; [IndentationError] is
    raised when the file is compiled, before any statement runs. *)
Inductive exn : Type :=
| ZeroDivisionError
| IndexError
| LibraryError
| IndentationError.

Inductive outcome (A : Type) : Type :=
| Ok (a : A)
| Raise (e : exn).
Arguments Ok {A} a.
Arguments Raise {A} e.

Definition bind {A B : Type} (m : outcome A) (k : A -> outcome B) : outcome B :=
  match m with
  | Ok a => k a
  | Raise e => Raise e
  end.

Notation "x <- m ;; k" := (bind m (fun x => k))
  (at level 61, m at next level, right associativity).

Definition succeeds {A : Type} (m : outcome A) : Prop :=
  match m with Ok _ => True | Raise _ => False end.

Definition fails {A : Type} (m : outcome A) : Prop :=
  match m with Ok _ => False | Raise _ => True end.

(** [float.__truediv__] between two Python floats. *)
Definition py_truediv (x y : num) : outcome num :=
  if is_zero y then Raise ZeroDivisionError else Ok (fdiv x y).

(** The builtin [max(a, b)]: [b] is taken only when [b > a]. *)
Definition py_max (a b : num) : num := if fgt b a then b else a.

(** [l[i]], negative indices counting from the end. *)
Definition py_index {A : Type} (l : list A) (i : Z) : outcome A :=
  let len := Z.of_nat (length l) in
  let j := if (i <? 0)%Z then (len + i)%Z else i in
  if ((j <? 0) || (len <=? j))%Z then Raise IndexError
  else match nth_error l (Z.to_nat j) with
       | Some a => Ok a
       | None => Raise IndexError
       end.

(** [range(lo, hi)]. *)
Definition py_range (lo hi : Z) : list Z :=
  map (fun k => (lo + Z.of_nat k)%Z) (seq 0 (Z.to_nat (hi - lo))).

(** [sum(l)]: a left fold from the integer [0]. *)
Definition py_sum (l : list num) : num := fold_left fadd l (of_Z 0).

(** [for x in xs: st = body(st, x)], stopping at the first exception. *)
Fixpoint for_each {S X : Type} (body : S -> X -> outcome S)
         (xs : list X) (st : S) : outcome S :=
  match xs with
  | [] => Ok st
  | x :: xs' => st' <- body st x ;; for_each body xs' st'
  end.

(** ** [numpy_financial.pmt]

    The library routine called at line 19, with its defaults [fv=0] and
    [when='end'] (which the library turns into [0]):
    [temp = (1+rate)**nper; mask = (rate == 0);]
    [masked_rate = where(mask, 1, rate);]
    [fact = where(mask != 0, nper, (1 + masked_rate*when)*(temp - 1)/masked_rate);]
    [return -(fv + pv*temp)/fact]. *)
Definition np_where (c : bool) (a b : num) : num := if c then a else b.

Definition pmt (rate : num) (nper : Z) (pv : num) : num :=
  let fv := of_Z 0 in
  let when := of_Z 0 in
  let temp := fpow (fadd (of_Z 1) rate) nper in
  let mask := feqb rate (of_Z 0) in
  let masked_rate := np_where mask (of_Z 1) rate in
  let fact :=
    np_where mask (of_Z nper)
      (fdiv (fmul (fadd (of_Z 1) (fmul masked_rate when))
                  (fsub temp (of_Z 1)))
            masked_rate) in
  fdiv (fneg (fadd fv (fmul pv temp))) fact.

(** ** [amortization_schedule] (lines 15-35) *)

(** One dictionary appended to [schedule]. *)
Record PeriodRecord : Type := mkPeriod {
  payment : num;
  interest : num;
  principal : num;
  balance : num
}.

(** The body of [for _ in range(term_years)], run [k] times from the
    running [bal]; the running balance itself is not floored, only the
    recorded one is. *)
Fixpoint schedule_loop (k : nat) (pay r bal : num) : list PeriodRecord :=
  match k with
  | O => []
  | S k' =>
      let interest := fmul bal r in
      let principal := fsub pay interest in
      let bal' := fsub bal principal in
      mkPeriod pay interest principal (py_max bal' (of_Z 0))
        :: schedule_loop k' pay r bal'
  end.

(** The function as its text reads with the assignment to [payment]
    (line 19) inside the body, where [r], [n] and [loan_amount] are
    bound; the arguments are floats.  In the file as shipped line 19
    starts at column 0 and the file does not compile: [app_py] below is
    the file as shipped, and the statements about the schedule are made
    on [pmt] and [schedule_loop], the text of lines 19 and 21-33. *)
Definition amortization_schedule
           (loan_amount rate : num) (amort_years term_years : Z)
  : outcome (list PeriodRecord) :=
  let r := rate in
  let n := amort_years in
  let payment := pmt r n (fneg loan_amount) in
  Ok (schedule_loop (Z.to_nat term_years) payment r loan_amount).

(** ** The script (lines 47-106) *)

(** What the sidebar widgets return.  The two [number_input]s are
    unbounded; the sliders and the select box return values within the
    bounds written at lines 49-56, which [in_widget_range] below
    records. *)
Record Inputs : Type := mkInputs {
  purchase_price : Q;
  noi_year_1 : Q;
  rent_growth_slider : Q;
  expense_growth_slider : Q;
  exit_cap_slider : Q;
  ltv : Q;
  interest_rate_slider : Q;
  amort_years : Z
}.

(** [slider(...) / 100]: the divisor is the literal [100]. *)
Definition percent (s : Q) : num := fdiv (Fin s) (of_Z 100).

Definition rent_growth (i : Inputs) : num := percent (rent_growth_slider i).
Definition expense_growth (i : Inputs) : num := percent (expense_growth_slider i).
Definition exit_cap (i : Inputs) : num := percent (exit_cap_slider i).
Definition interest_rate (i : Inputs) : num := percent (interest_rate_slider i).

Definition loan_term : Z := 10.

Definition loan_amount (i : Inputs) : num :=
  fmul (Fin (purchase_price i)) (Fin (ltv i)).

Definition equity (i : Inputs) : num :=
  fsub (Fin (purchase_price i)) (loan_amount i).

(** The variables the yearly loop updates. *)
Record Projection : Type := mkProjection {
  noi : num;
  noi_list : list num;
  cf_list : list num;
  dscr_list : list num
}.

(** The body of [for year in range(1, 11)] (lines 80-90).  [noi] is a
    Python number and [debt_service] a [numpy.float64], so the last
    division is numpy's. *)
Definition year_body (schedule : list PeriodRecord) (growth : num)
           (st : Projection) (year : Z) : outcome Projection :=
  rec <- py_index schedule (year - 1) ;;
  let debt_service := payment rec in
  let noi' :=
    if (1 <? year)%Z then fmul (noi st) (fadd (of_Z 1) growth) else noi st in
  let cashflow := fsub noi' debt_service in
  Ok (mkProjection noi'
        (noi_list st ++ [noi'])
        (cf_list st ++ [cashflow])
        (dscr_list st ++ [fdiv noi' debt_service])).

(** The loop over [years], from the state set up at lines 73-77. *)
Definition project (noi1 growth : num) (schedule : list PeriodRecord)
           (years : list Z) : outcome Projection :=
  for_each (year_body schedule growth) years (mkProjection noi1 [] [] []).

(** [exit_value = noi_list[-1] / exit_cap]: both operands are Python
    floats. *)
Definition exit_value (noi_list : list num) (exit_cap : num) : outcome num :=
  final_noi <- py_index noi_list (-1) ;;
  py_truediv final_noi exit_cap.

Definition remaining_balance (schedule : list PeriodRecord) : outcome num :=
  rec <- py_index schedule (-1) ;; Ok (balance rec).

Definition net_sales_proceeds (exit_value remaining_balance : num) : num :=
  fsub exit_value remaining_balance.

(** [[-equity] + cf_list[:-1] + [cf_list[-1] + net_sales_proceeds]]. *)
Definition cashflows (equity : num) (cf_list : list num) (nsp : num)
  : outcome (list num) :=
  final_cf <- py_index cf_list (-1) ;;
  Ok ([fneg equity] ++ removelast cf_list ++ [fadd final_cf nsp]).

(** [sum(cashflows[1:]) / (-cashflows[0])]: the sum is a [numpy.float64]. *)
Definition equity_multiple (cashflows : list num) : outcome num :=
  c0 <- py_index cashflows 0 ;;
  Ok (fdiv (py_sum (tl cashflows)) (fneg c0)).

(** Everything the script has computed when it reaches the output
    section. *)
Record Summary : Type := mkSummary {
  s_loan_amount : num;
  s_equity : num;
  s_schedule : list PeriodRecord;
  s_noi_list : list num;
  s_cf_list : list num;
  s_dscr_list : list num;
  s_exit_value : num;
  s_remaining_balance : num;
  s_net_sales_proceeds : num;
  s_cashflows : list num;
  s_irr_val : option num;
  s_equity_multiple : num
}.

(** What [col1.metric("IRR", ...)] shows: the conditional
    [f"..." if irr_val else "N/A"]. *)
Inductive irr_metric : Type :=
| Percent (v : num)
| NotAvailable.

Definition py_truthy (x : num) : bool := negb (is_zero x).

Definition show_irr (irr_val : option num) : irr_metric :=
  match irr_val with
  | Some v => if py_truthy v then Percent (fmul v (of_Z 100)) else NotAvailable
  | None => NotAvailable
  end.

Section Script.

(** [numpy_financial.irr], a polynomial root finder outside this
    repository: any function from the cash-flow vector to a value or an
    exception. *)
Variable npf_irr : list num -> outcome num.

(** [irr] (lines 9-13): the bare [except] turns every exception into
    [None]. *)
Definition irr (cashflows : list num) : option num :=
  match npf_irr cashflows with
  | Ok v => Some v
  | Raise _ => None
  end.

(** The statements of lines 60-106 in order: what they compute once the
    module has been compiled. *)
Definition run (i : Inputs) : outcome Summary :=
  let loan_amount := loan_amount i in
  let equity := equity i in
  schedule <- amortization_schedule loan_amount (interest_rate i)
                (amort_years i) loan_term ;;
  p <- project (Fin (noi_year_1 i)) (rent_growth i) schedule (py_range 1 11) ;;
  exit_value <- exit_value (noi_list p) (exit_cap i) ;;
  remaining_balance <- remaining_balance schedule ;;
  let net_sales_proceeds := net_sales_proceeds exit_value remaining_balance in
  cashflows <- cashflows equity (cf_list p) net_sales_proceeds ;;
  let irr_val := irr cashflows in
  equity_multiple <- equity_multiple cashflows ;;
  Ok (mkSummary loan_amount equity schedule
        (noi_list p) (cf_list p) (dscr_list p)
        exit_value remaining_balance net_sales_proceeds
        cashflows irr_val equity_multiple).

End Script.

(** ** The file as shipped

    Python compiles a module before it runs any of it.  The tokenizer
    keeps a stack of indentation columns: a logical line that starts to
    the right of the top of the stack opens a block, which the grammar
    allows only directly after a line that ends in a colon, and which it
    requires there; a line that starts further left closes blocks and
    must land on a column of the stack.  Blank lines, comment lines and
    the continuation lines inside brackets do not count. *)

(** A logical line: its number in the file, the column it starts at and
    whether it is the header of a compound statement. *)
Record SourceLine : Type := mkLine {
  lineno : Z;
  indent : nat;
  opens_block : bool
}.

(** The logical lines of [app.py]. *)
Definition app_py_layout : list SourceLine :=
  [ mkLine 1 0 false; mkLine 2 0 false; mkLine 3 0 false; mkLine 4 0 false;
    mkLine 9 0 true; mkLine 10 4 true; mkLine 11 8 false;
    mkLine 12 4 true; mkLine 13 8 false;
    mkLine 15 0 true; mkLine 16 4 false; mkLine 17 4 false;
    mkLine 18 4 false; mkLine 19 0 false;
    mkLine 21 4 false; mkLine 22 4 false;
    mkLine 24 4 true; mkLine 25 8 false; mkLine 26 8 false;
    mkLine 27 8 false; mkLine 28 8 false; mkLine 35 4 false;
    mkLine 42 0 false; mkLine 43 0 false; mkLine 45 0 false;
    mkLine 47 0 false; mkLine 48 0 false; mkLine 49 0 false;
    mkLine 50 0 false; mkLine 51 0 false; mkLine 53 0 false;
    mkLine 55 0 false; mkLine 56 0 false; mkLine 57 0 false;
    mkLine 58 0 false; mkLine 60 0 false; mkLine 61 0 false;
    mkLine 63 0 false; mkLine 64 0 false; mkLine 65 0 false;
    mkLine 71 0 false; mkLine 73 0 false; mkLine 74 0 false;
    mkLine 75 0 false; mkLine 77 0 false;
    mkLine 79 0 true; mkLine 80 4 false; mkLine 83 4 true;
    mkLine 84 8 false; mkLine 86 4 false; mkLine 88 4 false;
    mkLine 89 4 false; mkLine 90 4 false;
    mkLine 96 0 false; mkLine 97 0 false; mkLine 98 0 false;
    mkLine 104 0 false; mkLine 105 0 false; mkLine 106 0 false;
    mkLine 112 0 false; mkLine 114 0 false; mkLine 115 0 false;
    mkLine 116 0 false; mkLine 117 0 false; mkLine 119 0 false;
    mkLine 120 0 false; mkLine 127 0 false; mkLine 134 0 false;
    mkLine 135 0 false; mkLine 137 0 false; mkLine 138 0 false;
    mkLine 140 0 false; mkLine 141 0 false; mkLine 143 0 false ].

(** Close blocks until the top of the stack is not to the right of
    column [c]. *)
Fixpoint dedent (stack : list nat) (c : nat) : list nat :=
  match stack with
  | top :: rest => if (c <? top)%nat then dedent rest c else stack
  | [] => []
  end.

(** The number of the first line the compiler refuses, if there is one. *)
Fixpoint indentation_error (stack : list nat) (expect_block : bool)
         (ls : list SourceLine) : option Z :=
  match ls with
  | [] => None
  | l :: ls' =>
      let top := hd 0%nat stack in
      if expect_block then
        if (top <? indent l)%nat
        then indentation_error (indent l :: stack) (opens_block l) ls'
        else Some (lineno l)
      else if (top <? indent l)%nat then Some (lineno l)
      else
        let stack' := dedent stack (indent l) in
        if (hd 0%nat stack' =? indent l)%nat
        then indentation_error stack' (opens_block l) ls'
        else Some (lineno l)
  end.

Definition python_compile (ls : list SourceLine) : outcome unit :=
  match indentation_error [0%nat] false ls with
  | Some _ => Raise IndentationError
  | None => Ok tt
  end.

(** The layout with line [k] moved to column [c]. *)
Definition move_line (k : Z) (c : nat) (ls : list SourceLine)
  : list SourceLine :=
  map (fun l => if (lineno l =? k)%Z then mkLine (lineno l) c (opens_block l)
                else l) ls.

(** Running the file: compile it, then execute its statements. *)
Definition app_py (npf_irr : list num -> outcome num) (i : Inputs)
  : outcome Summary :=
  _ <- python_compile app_py_layout ;; run npf_irr i.

(** What the widgets of the sidebar can return: the sliders are bounded,
    the select box offers three terms, the two number inputs are free. *)
Definition in_widget_range (i : Inputs) : Prop :=
  (0 <= rent_growth_slider i /\ rent_growth_slider i <= 5) /\
  (0 <= expense_growth_slider i /\ expense_growth_slider i <= 5) /\
  (4 <= exit_cap_slider i /\ exit_cap_slider i <= 9) /\
  (0 <= ltv i /\ ltv i <= 9 # 10) /\
  (2 <= interest_rate_slider i /\ interest_rate_slider i <= 10) /\
  (amort_years i = 20 \/ amort_years i = 25 \/ amort_years i = 30)%Z.

(** A library stand-in that always raises, and one that always answers. *)
Definition irr_raises (_ : list num) : outcome num := Raise LibraryError.
Definition irr_answers (v : num) (_ : list num) : outcome num := Ok v.

(** ** Quantities the properties are stated with *)

(** The loop variable [balance] after [k] iterations, before the floor
    that line 32 applies to the recorded copy only.  It is used in proofs
    alone: [schedule_loop_nth] shows that the record [schedule_loop]
    builds in iteration [j] is computed from it. *)
Fixpoint running_balance (k : nat) (pay r bal : num) : num :=
  match k with
  | O => bal
  | S k' => running_balance k' pay r (fsub bal (fsub pay (fmul bal r)))
  end.

(** The same recurrence on rationals:
    [b' = b - (pay - b * r)]. *)
Fixpoint bal_after (k : nat) (pay r b : Q) : Q :=
  match k with
  | O => b
  | S k' => bal_after k' pay r (b - (pay - b * r))
  end.

(** [max(a, 0)] on rationals. *)
Definition floor0 (a : Q) : Q := if Qltb a 0 then 0 else a.

(** The annuity payment as the specification writes it. *)
Definition annuity_payment (P r : Q) (n : Z) : Q :=
  if Qeq_bool r 0 then P / inject_Z n
  else P * r / (1 - (1 + r) ^ (- n)).

(** [[Fin q1; ...; Fin qn]] stands for [[q1; ...; qn]]. *)
Definition represents_all (xs : list num) (qs : list Q) : Prop :=
  Forall2 represents xs qs.

Definition Qsum (qs : list Q) : Q := fold_right Qplus 0 qs.

(** The equity multiple as the data model words it: the positive inflows
    only, over the initial outflow. *)
Definition positive_inflows (qs : list Q) : Q :=
  Qsum (filter (fun q => Qltb 0 q) qs).

Definition equity_multiple_positive_inflows (outflow : Q) (qs : list Q) : Q :=
  positive_inflows qs / outflow.

(** Two input records that differ at most in the expense-growth slider. *)
Definition same_but_expense_growth (i j : Inputs) : Prop :=
  purchase_price i = purchase_price j /\
  noi_year_1 i = noi_year_1 j /\
  rent_growth_slider i = rent_growth_slider j /\
  exit_cap_slider i = exit_cap_slider j /\
  ltv i = ltv j /\
  interest_rate_slider i = interest_rate_slider j /\
  amort_years i = amort_years j.

(** Row [k] (counting from 0) of the yearly table held in [st]: the NOI
    [x], the year's record of the schedule, and the cash flow and DSCR
    computed from them. *)
Definition year_row (noi1 g : Q) (schedule : list PeriodRecord)
           (st : Projection) (k : nat) : Prop :=
  exists x rec,
    nth_error (noi_list st) k = Some x /\
    nth_error schedule k = Some rec /\
    nth_error (cf_list st) k = Some (fsub x (payment rec)) /\
    nth_error (dscr_list st) k = Some (fdiv x (payment rec)) /\
    x ~= noi1 * (1 + g) ^ Z.of_nat k /\
    (k = 0%nat -> x = Fin noi1).

(** The loop invariant after [j] years. *)
Definition projected (noi1 g : Q) (schedule : list PeriodRecord)
           (j : nat) (st : Projection) : Prop :=
  length (noi_list st) = j /\
  length (cf_list st) = j /\
  length (dscr_list st) = j /\
  (j = 0%nat -> noi st = Fin noi1) /\
  (forall j', j = S j' -> nth_error (noi_list st) j' = Some (noi st)) /\
  (forall k, (k < j)%nat -> year_row noi1 g schedule st k).

(** * Properties *)

(** ** Finite values and the rationals they stand for *)

Lemma Qltb_true (a b : Q) : Qltb a b = true <-> a < b.
Proof.
  unfold Qltb. rewrite negb_true_iff.
  split; intro H.
  - apply Qnot_le_lt. intro Hle. apply Qle_bool_iff in Hle. congruence.
  - destruct (Qle_bool b a) eqn:E; [|reflexivity].
    apply Qle_bool_iff in E. exfalso. apply (Qlt_not_le _ _ H E).
Qed.

Lemma Qltb_false (a b : Q) : Qltb a b = false <-> b <= a.
Proof.
  unfold Qltb. rewrite negb_false_iff. apply Qle_bool_iff.
Qed.

Lemma Qeq_bool_false (a b : Q) : Qeq_bool a b = false <-> ~ a == b.
Proof.
  split; intro H.
  - intro E. apply Qeq_bool_iff in E. congruence.
  - destruct (Qeq_bool a b) eqn:E; [|reflexivity].
    apply Qeq_bool_iff in E. contradiction.
Qed.

(** Case analysis on the boolean tests of the number model. *)
Ltac split_tests :=
  repeat match goal with
         | |- context [Qeq_bool ?a ?b] =>
             let E := fresh "E" in
             destruct (Qeq_bool a b) eqn:E;
             [apply Qeq_bool_iff in E | apply Qeq_bool_false in E]
         | |- context [Qltb ?a ?b] =>
             let E := fresh "E" in
             destruct (Qltb a b) eqn:E;
             [apply Qltb_true in E | apply Qltb_false in E]
         end.

Ltac repr_cases :=
  unfold represents in *; simpl in *;
  repeat match goal with
         | H : _ /\ _ |- _ => destruct H
         | H : false = true |- _ => discriminate H
         end.

#[export] Instance represents_comp : Proper (eq ==> Qeq ==> iff) represents.
Proof.
  intros x y -> a b E. unfold represents. rewrite E. reflexivity.
Qed.

Lemma Fin_repr (q : Q) : Fin q ~= q.
Proof. split; reflexivity. Qed.

Lemma of_Z_repr (z : Z) : of_Z z ~= inject_Z z.
Proof. split; reflexivity. Qed.

Lemma repr_unique (x : num) (a b : Q) : x ~= a -> x ~= b -> a == b.
Proof. intros [_ Ha] [_ Hb]. rewrite <- Ha. exact Hb. Qed.

Lemma fneg_repr (x : num) (a : Q) : x ~= a -> fneg x ~= - a.
Proof.
  destruct x; intros H; repr_cases; split_tests; simpl;
    (split; [reflexivity | lra]).
Qed.

Lemma fadd_repr (x y : num) (a b : Q) :
  x ~= a -> y ~= b -> fadd x y ~= a + b.
Proof.
  destruct x, y; intros Hx Hy; repr_cases;
    (split; [reflexivity | simpl; lra]).
Qed.

Lemma fsub_repr (x y : num) (a b : Q) :
  x ~= a -> y ~= b -> fsub x y ~= a - b.
Proof.
  intros Hx Hy. unfold fsub.
  setoid_replace (a - b) with (a + - b) by reflexivity.
  apply fadd_repr; [assumption | apply fneg_repr; assumption].
Qed.

Lemma signed_zero_repr (s : bool) : signed_zero s ~= 0.
Proof. destruct s; split; reflexivity. Qed.

Lemma zero_repr (x : num) (q : Q) : is_zero x = true -> q == 0 -> x ~= q.
Proof.
  destruct x; simpl; intros Hz Hq; try discriminate;
    (split; [reflexivity | simpl]).
  - apply Qeq_bool_iff in Hz. rewrite Hz, Hq. reflexivity.
  - symmetry. exact Hq.
Qed.

Lemma is_zero_signed_zero (s : bool) : is_zero (signed_zero s) = true.
Proof. destruct s; reflexivity. Qed.

Lemma repr_is_zero (x : num) (a : Q) : x ~= a -> (is_zero x = true <-> a == 0).
Proof.
  destruct x; intros H; repr_cases; split; intro Hz;
    try reflexivity; try discriminate.
  - apply Qeq_bool_iff in Hz. rewrite <- H0. exact Hz.
  - apply Qeq_bool_iff. rewrite H0. exact Hz.
  - symmetry. exact H0.
Qed.

Lemma repr_nonzero (x : num) (a : Q) : x ~= a -> ~ a == 0 -> is_zero x = false.
Proof.
  intros H Ha. destruct (is_zero x) eqn:E; [|reflexivity].
  apply (repr_is_zero _ _ H) in E. contradiction.
Qed.

Lemma repr_not_inf (x : num) (a : Q) : x ~= a -> is_inf x = false.
Proof. destruct x; intros H; repr_cases; reflexivity. Qed.

Lemma fmul_repr (x y : num) (a b : Q) :
  x ~= a -> y ~= b -> fmul x y ~= a * b.
Proof.
  intros [Fx Vx] [Fy Vy].
  destruct x as [p| | | |], y as [q| | | |]; simpl in *; try discriminate;
    unfold fmul; cbn [is_inf orb].
  - destruct (Qeq_bool (p * q) 0) eqn:E.
    + apply Qeq_bool_iff in E. apply zero_repr.
      * apply is_zero_signed_zero.
      * rewrite <- Vx, <- Vy. exact E.
    + split; [reflexivity | simpl; rewrite Vx, Vy; reflexivity].
  - apply zero_repr; [apply is_zero_signed_zero | rewrite <- Vy; ring].
  - apply zero_repr; [apply is_zero_signed_zero | rewrite <- Vx; ring].
  - apply zero_repr; [reflexivity | rewrite <- Vx; ring].
Qed.

Lemma fdiv_repr (x y : num) (a b : Q) :
  x ~= a -> y ~= b -> ~ b == 0 -> fdiv x y ~= a / b.
Proof.
  intros Hx Hy Hb.
  pose proof (repr_nonzero _ _ Hy Hb) as Hzy.
  pose proof (repr_not_inf _ _ Hx) as Hix.
  pose proof (repr_not_inf _ _ Hy) as Hiy.
  destruct Hx as [Fx Vx], Hy as [Fy Vy].
  destruct x as [p| | | |], y as [q| | | |]; try discriminate;
    unfold fdiv; rewrite ?Hix, ?Hiy, ?Hzy; simpl in Vx, Vy.
  - destruct (is_zero (Fin p)) eqn:E; simpl in E.
    + apply Qeq_bool_iff in E. apply zero_repr.
      * apply is_zero_signed_zero.
      * rewrite <- Vx, E. unfold Qdiv. ring.
    + split; [reflexivity | simpl; rewrite Vx, Vy; reflexivity].
  - cbn [is_zero]. apply zero_repr; [apply is_zero_signed_zero |].
    rewrite <- Vx. unfold Qdiv. ring.
Qed.

Lemma fpow_repr (x : num) (a : Q) (n : Z) :
  x ~= a -> (0 <= n)%Z \/ ~ a == 0 -> fpow x n ~= a ^ n.
Proof.
  intros [Fx Vx] Hn. unfold fpow.
  destruct (Z.eqb_spec n 0) as [->|Hn0].
  - split; reflexivity.
  - destruct x as [p| | | |]; simpl in *; try discriminate.
    + destruct (Qeq_bool p 0) eqn:E.
      * apply Qeq_bool_iff in E.
        assert (Ha : a == 0) by (rewrite <- Vx; exact E).
        destruct Hn as [Hn|Hn]; [|contradiction].
        destruct (Z.ltb_spec 0 n); [|lia].
        split; [reflexivity | simpl].
        rewrite Ha. symmetry. apply Qpower_0. exact Hn0.
      * split; [reflexivity | simpl; rewrite Vx; reflexivity].
    + assert (Ha : a == 0) by (symmetry; exact Vx).
      destruct Hn as [Hn|Hn]; [|contradiction].
      destruct (Z.ltb_spec 0 n); [|lia].
      apply zero_repr; [apply is_zero_signed_zero |].
      rewrite Ha. apply Qpower_0. exact Hn0.
Qed.

Lemma Qltb_comp (a a' b b' : Q) : a == a' -> b == b' -> Qltb a b = Qltb a' b'.
Proof.
  intros Ea Eb.
  destruct (Qltb a b) eqn:E1, (Qltb a' b') eqn:E2; try reflexivity.
  - apply Qltb_true in E1. apply Qltb_false in E2. rewrite Ea, Eb in E1. lra.
  - apply Qltb_false in E1. apply Qltb_true in E2. rewrite Ea, Eb in E1. lra.
Qed.

Lemma fgt_repr (x y : num) (a b : Q) :
  x ~= a -> y ~= b -> fgt x y = Qltb b a.
Proof.
  intros [Fx Vx] [Fy Vy].
  destruct x as [p| | | |], y as [q| | | |]; simpl in *; try discriminate;
    try (apply Qltb_comp; assumption).
  rewrite <- (Qltb_comp 0 b 0 a); try assumption.
  unfold Qltb. reflexivity.
Qed.

Lemma py_max_repr (x : num) (a : Q) :
  x ~= a -> py_max x (of_Z 0) ~= floor0 a.
Proof.
  intros Hx. unfold py_max, floor0.
  rewrite (fgt_repr _ _ _ _ (of_Z_repr 0) Hx).
  change (inject_Z 0) with 0.
  destruct (Qltb a 0); [apply Fin_repr | exact Hx].
Qed.

Lemma Qeq_bool_comp (a a' b b' : Q) :
  a == a' -> b == b' -> Qeq_bool a b = Qeq_bool a' b'.
Proof.
  intros Ea Eb.
  destruct (Qeq_bool a b) eqn:E1; symmetry.
  - apply Qeq_bool_iff in E1. apply Qeq_bool_iff. rewrite <- Ea, <- Eb. exact E1.
  - apply Qeq_bool_false in E1. apply Qeq_bool_false. rewrite <- Ea, <- Eb. exact E1.
Qed.

Lemma feqb_zero_repr (x : num) (a : Q) :
  x ~= a -> feqb x (of_Z 0) = Qeq_bool a 0.
Proof.
  intros [Fx Vx].
  destruct x as [p| | | |]; simpl in *; try discriminate.
  - apply Qeq_bool_comp; [exact Vx | reflexivity].
  - symmetry. apply Qeq_bool_iff. symmetry. exact Vx.
Qed.

(** ** The payment *)

Lemma inject_Z_nonzero (n : Z) : n <> 0%Z -> ~ inject_Z n == 0.
Proof.
  intros Hn E. apply Hn.
  unfold Qeq in E. simpl in E. lia.
Qed.

(** The library's expression on finite operands, for a nonzero rate. *)
Lemma pmt_repr_rate (rate loan : num) (r P : Q) (n : Z) :
  rate ~= r -> loan ~= P -> ~ r == 0 ->
  (0 <= n)%Z \/ ~ 1 + r == 0 ->
  ~ (1 + r) ^ n == 1 ->
  pmt rate n (fneg loan) ~= P * (1 + r) ^ n / (((1 + r) ^ n - 1) / r).
Proof.
  intros Hr HP Hr0 Hn Ht. unfold pmt.
  rewrite (feqb_zero_repr _ _ Hr).
  rewrite (proj2 (Qeq_bool_false r 0) Hr0). unfold np_where.
  pose proof (fpow_repr _ _ n (fadd_repr _ _ _ _ (of_Z_repr 1) Hr) Hn) as Htemp.
  change (inject_Z 1) with 1 in Htemp.
  set (temp := fpow (fadd (of_Z 1) rate) n) in *.
  set (t := (1 + r) ^ n) in *.
  assert (Hfact : fdiv (fmul (fadd (of_Z 1) (fmul rate (of_Z 0)))
                             (fsub temp (of_Z 1))) rate
                  ~= (1 + r * 0) * (t - 1) / r).
  { apply fdiv_repr; [|exact Hr|exact Hr0].
    apply fmul_repr.
    - apply (fadd_repr _ _ 1 (r * 0) (of_Z_repr 1)).
      apply (fmul_repr _ _ r 0 Hr (of_Z_repr 0)).
    - apply (fsub_repr _ _ t 1 Htemp (of_Z_repr 1)). }
  assert (Hnum : fneg (fadd (of_Z 0) (fmul (fneg loan) temp))
                 ~= - (0 + - P * t)).
  { apply fneg_repr. apply (fadd_repr _ _ 0 (- P * t) (of_Z_repr 0)).
    apply fmul_repr; [apply fneg_repr; exact HP | exact Htemp]. }
  assert (Hd : ~ (1 + r * 0) * (t - 1) / r == 0).
  { intro E. apply Ht.
    assert (E' : (1 + r * 0) * (t - 1) / r * r == 0) by (rewrite E; ring).
    field_simplify in E'; [|exact Hr0]. lra. }
  pose proof (fdiv_repr _ _ _ _ Hnum Hfact Hd) as H.
  eapply represents_comp; [reflexivity | | exact H].
  field. split; [exact Hr0 | lra].
Qed.

(** ... and for a zero rate. *)
Lemma pmt_repr_zero_rate (rate loan : num) (r P : Q) (n : Z) :
  rate ~= r -> loan ~= P -> r == 0 -> n <> 0%Z ->
  pmt rate n (fneg loan) ~= P / inject_Z n.
Proof.
  intros Hr HP Hr0 Hn. unfold pmt.
  rewrite (feqb_zero_repr _ _ Hr).
  rewrite (proj2 (Qeq_bool_iff r 0) Hr0). unfold np_where.
  assert (Hbase : ~ 1 + r == 0) by (rewrite Hr0; lra).
  pose proof (fpow_repr _ _ n (fadd_repr _ _ _ _ (of_Z_repr 1) Hr)
                (or_intror Hbase)) as Htemp.
  change (inject_Z 1) with 1 in Htemp.
  assert (Ht : (1 + r) ^ n == 1).
  { rewrite Hr0. setoid_replace (1 + 0) with 1 by ring. apply Qpower_1. }
  rewrite Ht in Htemp.
  assert (Hnum : fneg (fadd (of_Z 0)
                         (fmul (fneg loan) (fpow (fadd (of_Z 1) rate) n)))
                 ~= - (0 + - P * 1)).
  { apply fneg_repr. apply (fadd_repr _ _ 0 (- P * 1) (of_Z_repr 0)).
    apply fmul_repr; [apply fneg_repr; exact HP | exact Htemp]. }
  pose proof (fdiv_repr _ _ _ _ Hnum (of_Z_repr n) (inject_Z_nonzero n Hn)) as H.
  eapply represents_comp; [reflexivity | | exact H].
  field. apply inject_Z_nonzero. exact Hn.
Qed.

Lemma growth_factor_gt_1 (r : Q) (n : Z) :
  0 < r -> (0 < n)%Z -> 1 < (1 + r) ^ n.
Proof. intros Hr Hn. apply Qpower_1_lt; [lra | exact Hn]. Qed.

(** For a non-negative rate and a positive term the payment is the
    annuity payment of the specification. *)
Lemma pmt_annuity (rate loan : num) (r P : Q) (n : Z) :
  rate ~= r -> loan ~= P -> 0 <= r -> (0 < n)%Z ->
  pmt rate n (fneg loan) ~= annuity_payment P r n.
Proof.
  intros Hr HP Hr0 Hn. unfold annuity_payment.
  destruct (Qeq_bool r 0) eqn:E.
  - apply Qeq_bool_iff in E. apply (pmt_repr_zero_rate rate loan r P n); try assumption. lia.
  - apply Qeq_bool_false in E.
    assert (Hrpos : 0 < r) by (apply Qle_lt_or_eq in Hr0; destruct Hr0 as [H|H];
                               [exact H | exfalso; apply E; symmetry; exact H]).
    pose proof (growth_factor_gt_1 r n Hrpos Hn) as Ht.
    assert (Hne : ~ (1 + r) ^ n == 1) by lra.
    pose proof (pmt_repr_rate rate loan r P n Hr HP E (or_introl (Z.lt_le_incl _ _ Hn)) Hne) as H.
    eapply represents_comp; [reflexivity | | exact H].
    rewrite Qpower_opp.
    set (t := (1 + r) ^ n) in *.
    field. repeat split; lra.
Qed.

(** ** The schedule loop *)

Lemma schedule_loop_length (k : nat) (pay r bal : num) :
  length (schedule_loop k pay r bal) = k.
Proof.
  revert bal. induction k as [|k IH]; intros bal; simpl; [reflexivity|].
  rewrite IH. reflexivity.
Qed.

(** Record [j] (counting from 0) is built from the running balance after
    [j] iterations. *)
Lemma schedule_loop_nth (k j : nat) (pay r bal : num) :
  (j < k)%nat ->
  nth_error (schedule_loop k pay r bal) j =
  Some (let b := running_balance j pay r bal in
        mkPeriod pay (fmul b r) (fsub pay (fmul b r))
                 (py_max (running_balance (S j) pay r bal) (of_Z 0))).
Proof.
  revert j bal. induction k as [|k IH]; intros j bal Hj; [lia|].
  destruct j as [|j].
  - reflexivity.
  - simpl schedule_loop. simpl nth_error. rewrite IH by lia. reflexivity.
Qed.

Lemma running_balance_S (k : nat) (pay r bal : num) :
  running_balance (S k) pay r bal =
  let b := running_balance k pay r bal in fsub b (fsub pay (fmul b r)).
Proof.
  revert bal. induction k as [|k IH]; intros bal; [reflexivity|].
  change (running_balance (S (S k)) pay r bal)
    with (running_balance (S k) pay r (fsub bal (fsub pay (fmul bal r)))).
  rewrite IH. reflexivity.
Qed.

#[export] Instance bal_after_comp (k : nat) :
  Proper (Qeq ==> Qeq ==> Qeq ==> Qeq) (bal_after k).
Proof.
  induction k as [|k IH]; intros p p' Ep r r' Er b b' Eb; simpl.
  - exact Eb.
  - apply IH; try assumption. rewrite Ep, Er, Eb. reflexivity.
Qed.

Lemma bal_after_S (k : nat) (p r b : Q) :
  bal_after (S k) p r b ==
  bal_after k p r b - (p - bal_after k p r b * r).
Proof.
  revert b. induction k as [|k IH]; intros b; [reflexivity|].
  change (bal_after (S (S k)) p r b)
    with (bal_after (S k) p r (b - (p - b * r))).
  rewrite IH. reflexivity.
Qed.

Lemma running_balance_repr (k : nat) (pay r bal : num) (p rq b : Q) :
  pay ~= p -> r ~= rq -> bal ~= b ->
  running_balance k pay r bal ~= bal_after k p rq b.
Proof.
  intros Hp Hr. revert bal b.
  induction k as [|k IH]; intros bal b Hb; simpl; [exact Hb|].
  apply IH. apply fsub_repr; [exact Hb|].
  apply fsub_repr; [exact Hp|]. apply fmul_repr; assumption.
Qed.

(** *** The recurrence in closed form *)

Lemma Qpower_nat_S (x : Q) (k : nat) :
  x ^ Z.of_nat (S k) == x * x ^ Z.of_nat k.
Proof.
  rewrite Nat2Z.inj_succ. unfold Z.succ.
  rewrite Qpower_plus' by lia. rewrite Qpower_1_r. ring.
Qed.

Lemma bal_after_closed (k : nat) (p r b : Q) :
  r * bal_after k p r b ==
  r * b * (1 + r) ^ Z.of_nat k - p * ((1 + r) ^ Z.of_nat k - 1).
Proof.
  revert b. induction k as [|k IH]; intros b.
  - simpl. ring.
  - change (bal_after (S k) p r b) with (bal_after k p r (b - (p - b * r))).
    rewrite IH, Qpower_nat_S. ring.
Qed.

Lemma bal_after_zero_rate (k : nat) (p r b : Q) :
  r == 0 -> bal_after k p r b == b - inject_Z (Z.of_nat k) * p.
Proof.
  intros Hr. revert b. induction k as [|k IH]; intros b.
  - simpl. change (inject_Z 0) with 0. ring.
  - change (bal_after (S k) p r b) with (bal_after k p r (b - (p - b * r))).
    rewrite IH, Nat2Z.inj_succ. unfold Z.succ.
    rewrite inject_Z_plus, Hr. change (inject_Z 1) with 1. ring.
Qed.

(** The annuity payment brings the running balance to zero after exactly
    [n] periods. *)
Lemma annuity_amortizes (P r : Q) (n : nat) :
  0 <= r -> (0 < n)%nat ->
  bal_after n (annuity_payment P r (Z.of_nat n)) r P == 0.
Proof.
  intros Hr Hn. unfold annuity_payment.
  destruct (Qeq_bool r 0) eqn:E.
  - apply Qeq_bool_iff in E. rewrite (bal_after_zero_rate _ _ _ _ E).
    field. apply inject_Z_nonzero. lia.
  - apply Qeq_bool_false in E.
    assert (Hrpos : 0 < r) by (apply Qle_lt_or_eq in Hr; destruct Hr as [H|H];
                               [exact H | exfalso; apply E; symmetry; exact H]).
    assert (Ht : 1 < (1 + r) ^ Z.of_nat n)
      by (apply growth_factor_gt_1; [exact Hrpos | lia]).
    apply (Qmult_integral_l r); [exact E|].
    rewrite bal_after_closed, Qpower_opp.
    set (t := (1 + r) ^ Z.of_nat n) in *.
    field. repeat split; lra.
Qed.

(** ** Indexing *)

Lemma py_index_last {A : Type} (l : list A) (x : A) :
  nth_error l (length l - 1) = Some x -> py_index l (-1) = Ok x.
Proof.
  intros H. unfold py_index.
  assert (Hlen : (0 < length l)%nat).
  { destruct l; [destruct (0 - 1)%nat; discriminate | simpl; lia]. }
  change (-1 <? 0)%Z with true. cbv iota.
  destruct (Z.ltb_spec (Z.of_nat (length l) + -1) 0); [lia|].
  destruct (Z.leb_spec (Z.of_nat (length l)) (Z.of_nat (length l) + -1)); [lia|].
  simpl orb. cbv iota.
  replace (Z.to_nat (Z.of_nat (length l) + -1)) with (length l - 1)%nat by lia.
  rewrite H. reflexivity.
Qed.

Lemma py_index_nth {A : Type} (l : list A) (j : nat) (x : A) :
  nth_error l j = Some x -> py_index l (Z.of_nat j) = Ok x.
Proof.
  intros H. unfold py_index.
  assert (Hj : (j < length l)%nat) by (apply nth_error_Some; congruence).
  destruct (Z.ltb_spec (Z.of_nat j) 0); [lia|].
  destruct (Z.ltb_spec (Z.of_nat j) 0); [lia|].
  destruct (Z.leb_spec (Z.of_nat (length l)) (Z.of_nat j)); [lia|].
  simpl orb. cbv iota. rewrite Nat2Z.id, H. reflexivity.
Qed.

Lemma py_index_empty {A : Type} (i : Z) : py_index (@nil A) i = Raise IndexError.
Proof.
  unfold py_index. simpl length. change (Z.of_nat 0) with 0%Z.
  destruct (i <? 0)%Z eqn:E.
  - destruct (Z.ltb_spec (0 + i) 0); [reflexivity|].
    apply Z.ltb_lt in E. lia.
  - destruct (Z.ltb_spec i 0); [reflexivity|].
    destruct (Z.leb_spec 0 i); [reflexivity | lia].
Qed.

(** ** The floor on the recorded balance *)

Lemma floor0_nonneg (a : Q) : 0 <= floor0 a.
Proof.
  unfold floor0. destruct (Qltb a 0) eqn:E; [lra|].
  apply Qltb_false in E. exact E.
Qed.

Lemma floor0_id (a : Q) : 0 <= a -> floor0 a = a.
Proof.
  intros H. unfold floor0. destruct (Qltb a 0) eqn:E; [|reflexivity].
  apply Qltb_true in E. lra.
Qed.

Lemma floor0_neg (a : Q) : a <= 0 -> floor0 a == 0.
Proof.
  intros H. unfold floor0. destruct (Qltb a 0) eqn:E; [reflexivity|].
  apply Qltb_false in E. lra.
Qed.

Lemma floor0_mono (a b : Q) : a <= b -> floor0 a <= floor0 b.
Proof.
  intros H. unfold floor0.
  destruct (Qltb a 0) eqn:Ea, (Qltb b 0) eqn:Eb;
    try apply Qltb_true in Ea; try apply Qltb_false in Ea;
    try apply Qltb_true in Eb; try apply Qltb_false in Eb; lra.
Qed.

#[export] Instance floor0_comp : Proper (Qeq ==> Qeq) floor0.
Proof.
  intros a b E. unfold floor0. rewrite (Qltb_comp a b 0 0 E (Qeq_refl 0)).
  destruct (Qltb b 0); [reflexivity | exact E].
Qed.

(** *** Monotonicity of the running balance *)

Lemma annuity_covers_interest (P r : Q) (n : Z) :
  0 <= P -> 0 <= r -> (0 < n)%Z -> r * P <= annuity_payment P r n.
Proof.
  intros HP Hr Hn. unfold annuity_payment.
  destruct (Qeq_bool r 0) eqn:E.
  - apply Qeq_bool_iff in E. rewrite E.
    assert (Hpos : 0 < inject_Z n).
    { change 0 with (inject_Z 0). rewrite <- Zlt_Qlt. exact Hn. }
    setoid_replace (0 * P) with 0 by ring.
    apply Qle_shift_div_l; [exact Hpos | lra].
  - apply Qeq_bool_false in E.
    assert (Hrpos : 0 < r) by (apply Qle_lt_or_eq in Hr; destruct Hr as [H|H];
                               [exact H | exfalso; apply E; symmetry; exact H]).
    pose proof (growth_factor_gt_1 r n Hrpos Hn) as Ht.
    rewrite Qpower_opp.
    set (t := (1 + r) ^ n) in *.
    assert (Hinv : 0 < / t) by (apply Qinv_lt_0_compat; lra).
    assert (Hlt1 : / t < 1).
    { apply Qmult_lt_r with (z := t); [lra|].
      rewrite Qmult_comm, Qmult_inv_r by lra. lra. }
    apply Qle_shift_div_l; [lra|].
    assert (0 <= r * P) by (apply Qmult_le_0_compat; assumption).
    nra.
Qed.

Section RunningBalance.

Variables (p r P : Q).
Hypothesis rate_nonneg : 0 <= r.
Hypothesis interest_covered : r * P <= p.

Lemma bal_after_le_principal (k : nat) : bal_after k p r P <= P.
Proof.
  induction k as [|k IH]; [simpl; lra|].
  rewrite bal_after_S.
  assert (bal_after k p r P * r <= P * r).
  { apply Qmult_le_compat_r; assumption. }
  lra.
Qed.

Lemma bal_after_step_le (k : nat) : bal_after (S k) p r P <= bal_after k p r P.
Proof.
  rewrite bal_after_S.
  pose proof (bal_after_le_principal k) as Hle.
  assert (bal_after k p r P * r <= P * r).
  { apply Qmult_le_compat_r; assumption. }
  lra.
Qed.

Lemma bal_after_antitone (j k : nat) :
  (j <= k)%nat -> bal_after k p r P <= bal_after j p r P.
Proof.
  induction 1 as [|k Hjk IH]; [lra|].
  pose proof (bal_after_step_le k). lra.
Qed.

End RunningBalance.

(** With the annuity payment the running balance stays non-negative up to
    the end of the amortization term. *)
Lemma bal_after_nonneg_within_term (P r : Q) (n k : nat) :
  0 <= P -> 0 <= r -> (0 < n)%nat -> (k <= n)%nat ->
  0 <= bal_after k (annuity_payment P r (Z.of_nat n)) r P.
Proof.
  intros HP Hr Hn Hk.
  rewrite <- (annuity_amortizes P r n Hr Hn).
  apply bal_after_antitone; [exact Hr | | exact Hk].
  apply annuity_covers_interest; [assumption | assumption | lia].
Qed.

(** ** The yearly loop *)

Lemma py_range_cons (lo hi : Z) :
  (lo < hi)%Z -> py_range lo hi = lo :: py_range (lo + 1) hi.
Proof.
  intros H. unfold py_range.
  replace (Z.to_nat (hi - lo)) with (S (Z.to_nat (hi - (lo + 1)))) by lia.
  simpl seq. simpl map. f_equal; [lia|].
  rewrite <- seq_shift, map_map.
  apply map_ext. intros k. lia.
Qed.

Lemma py_range_nil (lo hi : Z) : (hi <= lo)%Z -> py_range lo hi = [].
Proof.
  intros H. unfold py_range.
  replace (Z.to_nat (hi - lo)) with 0%nat by lia. reflexivity.
Qed.

Lemma nth_error_snoc_old {A : Type} (l : list A) (x : A) (k : nat) :
  (k < length l)%nat -> nth_error (l ++ [x]) k = nth_error l k.
Proof. intros H. apply nth_error_app1. exact H. Qed.

Lemma nth_error_snoc_new {A : Type} (l : list A) (x : A) (k : nat) :
  length l = k -> nth_error (l ++ [x]) k = Some x.
Proof.
  intros <-. rewrite nth_error_app2 by lia. rewrite Nat.sub_diag. reflexivity.
Qed.

Section Projection.

Variables (noi1 g : Q) (growth : num) (schedule : list PeriodRecord).
Hypothesis growth_repr : growth ~= g.

Lemma projected_init :
  projected noi1 g schedule 0 (mkProjection (Fin noi1) [] [] []).
Proof.
  repeat split; simpl; try reflexivity; intros; try discriminate; lia.
Qed.

(** One pass of the loop body for year [j + 1]. *)
Lemma year_body_step (j : nat) (st : Projection) :
  projected noi1 g schedule j st -> (j < length schedule)%nat ->
  exists st',
    year_body schedule growth st (Z.of_nat j + 1) = Ok st' /\
    projected noi1 g schedule (S j) st'.
Proof.
  intros (Hn & Hc & Hd & H0 & Hlast & Hrows) Hj.
  destruct (nth_error schedule j) as [rec|] eqn:Erec;
    [|apply nth_error_None in Erec; lia].
  unfold year_body.
  replace (Z.of_nat j + 1 - 1)%Z with (Z.of_nat j) by lia.
  rewrite (py_index_nth _ _ _ Erec). cbn [bind].
  set (noi' := if (1 <? Z.of_nat j + 1)%Z
               then fmul (noi st) (fadd (of_Z 1) growth) else noi st).
  assert (Hnoi' : noi' ~= noi1 * (1 + g) ^ Z.of_nat j /\
                  (j = 0%nat -> noi' = Fin noi1)).
  { unfold noi'. destruct j as [|j'].
    - simpl. rewrite (H0 eq_refl). split; [|reflexivity].
      split; [reflexivity | simpl; ring].
    - destruct (Z.ltb_spec 1 (Z.of_nat (S j') + 1)); [|lia].
      split; [|discriminate].
      destruct (Hrows j' ltac:(lia)) as (x & rec' & Hx & _ & _ & _ & Hxr & _).
      rewrite (Hlast j' eq_refl) in Hx. injection Hx as <-.
      rewrite Qpower_nat_S.
      setoid_replace ((1 + g) * (1 + g) ^ Z.of_nat j')
        with ((1 + g) ^ Z.of_nat j' * (1 + g)) by ring.
      rewrite Qmult_assoc.
      apply fmul_repr; [exact Hxr|].
      apply (fadd_repr _ _ 1 g (of_Z_repr 1) growth_repr). }
  destruct Hnoi' as [Hrepr Hfirst].
  eexists. split; [reflexivity|].
  unfold projected. cbn [noi noi_list cf_list dscr_list].
  rewrite !length_app, Hn, Hc, Hd. simpl length.
  repeat split; try lia.
  - intros j' Hj'. injection Hj' as <-.
    apply nth_error_snoc_new. exact Hn.
  - intros k Hk. unfold year_row. cbn [noi_list cf_list dscr_list].
    destruct (Nat.eq_dec k j) as [->|Hne].
    + exists noi', rec.
      rewrite !nth_error_snoc_new by assumption.
      split; [reflexivity|]. split; [exact Erec|].
      split; [reflexivity|]. split; [reflexivity|]. split; assumption.
    + destruct (Hrows k ltac:(lia)) as (x & rec' & Hx & Hr & Hcf & Hds & Hxr & Hx0).
      exists x, rec'.
      rewrite !nth_error_snoc_old by lia.
      split; [exact Hx|]. split; [exact Hr|].
      split; [exact Hcf|]. split; [exact Hds|]. split; assumption.
Qed.

Lemma for_each_years (m j : nat) (st : Projection) :
  projected noi1 g schedule j st -> (j + m <= length schedule)%nat ->
  exists st',
    for_each (year_body schedule growth)
             (py_range (Z.of_nat j + 1) (Z.of_nat (j + m) + 1)) st = Ok st' /\
    projected noi1 g schedule (j + m) st'.
Proof.
  revert j st. induction m as [|m IH]; intros j st Hst Hlen.
  - rewrite py_range_nil by lia. rewrite Nat.add_0_r.
    exists st. split; [reflexivity | exact Hst].
  - rewrite py_range_cons by lia. cbn [for_each].
    destruct (year_body_step j st Hst ltac:(lia)) as (st1 & E1 & Hst1).
    rewrite E1. cbn [bind].
    destruct (IH (S j) st1 Hst1 ltac:(lia)) as (st' & E' & Hst').
    replace (Z.of_nat (S j) + 1)%Z with (Z.of_nat j + 1 + 1)%Z in E' by lia.
    replace (S j + m)%nat with (j + S m)%nat in * by lia.
    exists st'. split; assumption.
Qed.

(** The loop over years [1..h] on a schedule of at least [h] records. *)
Lemma project_projected (h : nat) :
  (h <= length schedule)%nat ->
  exists p,
    project (Fin noi1) growth schedule (py_range 1 (Z.of_nat h + 1)) = Ok p /\
    projected noi1 g schedule h p.
Proof.
  intros Hh. unfold project.
  exact (for_each_years h 0 _ projected_init Hh).
Qed.

End Projection.

(** C4.  The loop over years [1..h] returns [h] NOI values; the first is
    [noi_year1] itself and the [k]-th is [noi_year1 * (1 + g)^(k-1)]. *)
Theorem noi_growth_law (noi1 g : Q) (growth : num)
        (schedule : list PeriodRecord) (h : nat) :
  growth ~= g -> (h <= length schedule)%nat ->
  exists p,
    project (Fin noi1) growth schedule (py_range 1 (Z.of_nat h + 1)) = Ok p /\
    length (noi_list p) = h /\
    ((1 <= h)%nat -> nth_error (noi_list p) 0 = Some (Fin noi1)) /\
    forall k, (1 <= k <= h)%nat ->
      exists x, nth_error (noi_list p) (k - 1) = Some x /\
                x ~= noi1 * (1 + g) ^ (Z.of_nat k - 1).
Proof.
  intros Hg Hh.
  destruct (project_projected noi1 g growth schedule Hg h Hh)
    as (p & Ep & Hn & _ & _ & _ & _ & Hrows).
  exists p. split; [exact Ep|]. split; [exact Hn|]. split.
  - intros H1. destruct (Hrows 0%nat ltac:(lia)) as (x & rec & Hx & _ & _ & _ & _ & Hx0).
    rewrite Hx, (Hx0 eq_refl). reflexivity.
  - intros k Hk.
    destruct (Hrows (k - 1)%nat ltac:(lia)) as (x & rec & Hx & _ & _ & _ & Hxr & _).
    exists x. split; [exact Hx|].
    replace (Z.of_nat k - 1)%Z with (Z.of_nat (k - 1)) by lia. exact Hxr.
Qed.

Lemma noi_growth_law_witness :
  exists p,
    project (Fin 100) (Fin (2 # 100))
            (schedule_loop 2 (Fin 10) (Fin (1 # 10)) (Fin 100))
            (py_range 1 (Z.of_nat 2 + 1)) = Ok p /\
    length (noi_list p) = 2%nat /\
    ((1 <= 2)%nat -> nth_error (noi_list p) 0 = Some (Fin 100)) /\
    forall k, (1 <= k <= 2)%nat ->
      exists x, nth_error (noi_list p) (k - 1) = Some x /\
                x ~= 100 * (1 + (2 # 100)) ^ (Z.of_nat k - 1).
Proof.
  apply (noi_growth_law 100 (2 # 100) (Fin (2 # 100))
           (schedule_loop 2 (Fin 10) (Fin (1 # 10)) (Fin 100)) 2).
  - split; reflexivity.
  - simpl. lia.
Defined.

(** ** DSCR *)

Lemma fdiv_zero_divisor (x y : num) :
  finite x = true -> is_zero y = true ->
  fdiv x y = if is_zero x then NaN
             else signed_inf (xorb (signbit x) (signbit y)).
Proof.
  intros Fx Zy.
  destruct x as [a| | | |]; try discriminate;
    destruct y as [b| | | |]; try discriminate;
    unfold fdiv; cbn [is_inf]; rewrite Zy; reflexivity.
Qed.

Lemma signed_inf_is_inf (s : bool) : is_inf (signed_inf s) = true.
Proof. destruct s; reflexivity. Qed.

(** C5 (amended).  For every year [k] the DSCR entry is the numpy quotient
    of that year's NOI by that year's payment.  When the payment is not
    zero it is the number [NOI[k] / debt_service[k]].  When the payment is
    zero nothing is raised: the entry is NaN for a zero NOI and an
    infinity otherwise. *)
Theorem dscr_rows (noi1 g : Q) (growth : num)
        (schedule : list PeriodRecord) (h : nat) :
  growth ~= g -> (h <= length schedule)%nat ->
  exists p,
    project (Fin noi1) growth schedule (py_range 1 (Z.of_nat h + 1)) = Ok p /\
    length (dscr_list p) = h /\
    forall k, (1 <= k <= h)%nat ->
      exists x rec a,
        nth_error (noi_list p) (k - 1) = Some x /\ x ~= a /\
        nth_error schedule (k - 1) = Some rec /\
        nth_error (dscr_list p) (k - 1) = Some (fdiv x (payment rec)) /\
        (forall d, payment rec ~= d -> ~ d == 0 ->
                   fdiv x (payment rec) ~= a / d) /\
        (is_zero (payment rec) = true ->
         fdiv x (payment rec) =
         if is_zero x then NaN
         else signed_inf (xorb (signbit x) (signbit (payment rec)))).
Proof.
  intros Hg Hh.
  destruct (project_projected noi1 g growth schedule Hg h Hh)
    as (p & Ep & _ & _ & Hd & _ & _ & Hrows).
  exists p. split; [exact Ep|]. split; [exact Hd|].
  intros k Hk.
  destruct (Hrows (k - 1)%nat ltac:(lia))
    as (x & rec & Hx & Hrec & _ & Hds & Hxr & _).
  exists x, rec, (noi1 * (1 + g) ^ Z.of_nat (k - 1)).
  split; [exact Hx|]. split; [exact Hxr|]. split; [exact Hrec|].
  split; [exact Hds|]. split.
  - intros d Hd0 Hne. apply fdiv_repr; assumption.
  - intros Hz. apply fdiv_zero_divisor; [apply Hxr | exact Hz].
Qed.

Lemma dscr_rows_witness :
  exists p,
    project (Fin 100) (Fin (2 # 100))
            (schedule_loop 2 (Fin 10) (Fin (1 # 10)) (Fin 100))
            (py_range 1 (Z.of_nat 2 + 1)) = Ok p /\
    length (dscr_list p) = 2%nat /\
    forall k, (1 <= k <= 2)%nat ->
      exists x rec a,
        nth_error (noi_list p) (k - 1) = Some x /\ x ~= a /\
        nth_error (schedule_loop 2 (Fin 10) (Fin (1 # 10)) (Fin 100)) (k - 1)
        = Some rec /\
        nth_error (dscr_list p) (k - 1) = Some (fdiv x (payment rec)) /\
        (forall d, payment rec ~= d -> ~ d == 0 ->
                   fdiv x (payment rec) ~= a / d) /\
        (is_zero (payment rec) = true ->
         fdiv x (payment rec) =
         if is_zero x then NaN
         else signed_inf (xorb (signbit x) (signbit (payment rec)))).
Proof.
  apply (dscr_rows 100 (2 # 100) (Fin (2 # 100))
           (schedule_loop 2 (Fin 10) (Fin (1 # 10)) (Fin 100)) 2).
  - split; reflexivity.
  - simpl. lia.
Defined.

(** ** Percentages *)

Lemma percent_repr (s : Q) : percent s ~= s / 100.
Proof.
  unfold percent.
  apply (fdiv_repr _ _ s 100 (Fin_repr s) (of_Z_repr 100)).
  intro E. discriminate E.
Qed.

Lemma percent_is_zero (s : Q) : is_zero (percent s) = Qeq_bool s 0.
Proof.
  pose proof (repr_is_zero _ _ (percent_repr s)) as H.
  destruct (Qeq_bool s 0) eqn:E.
  - apply H. apply Qeq_bool_iff in E. rewrite E. reflexivity.
  - destruct (is_zero (percent s)); [|reflexivity].
    apply Qeq_bool_false in E. exfalso. apply E.
    assert (H1 : s / 100 == 0) by (apply H; reflexivity).
    assert (H2 : s / 100 * 100 == 0) by (rewrite H1; ring).
    field_simplify in H2. lra.
Qed.

(** ** The equity cash-flow vector *)

Lemma cashflows_snoc (eq0 : num) (init : list num) (lst nsp : num) :
  cashflows eq0 (init ++ [lst]) nsp
  = Ok (fneg eq0 :: init ++ [fadd lst nsp]).
Proof.
  unfold cashflows.
  rewrite (py_index_last (init ++ [lst]) lst).
  - cbn [bind]. rewrite removelast_last. reflexivity.
  - apply nth_error_snoc_new. rewrite length_app. simpl. lia.
Qed.

(** C7.  For a cash-flow list of [n >= 1] years the equity vector has
    [n + 1] entries: [-equity], then years [1..n-1] unchanged, then year
    [n] plus the net sale proceeds; the proceeds are the plain difference
    [exit_value - remaining_balance], whatever its sign. *)
Theorem equity_cashflow_vector (eq0 : num) (cf : list num) (ev rb : num) :
  (1 <= length cf)%nat ->
  exists v last_cf,
    cashflows eq0 cf (net_sales_proceeds ev rb) = Ok v /\
    length v = S (length cf) /\
    nth_error v 0 = Some (fneg eq0) /\
    (forall e, eq0 ~= e -> fneg eq0 ~= - e) /\
    (forall k, (1 <= k < length cf)%nat ->
               nth_error v k = nth_error cf (k - 1)) /\
    nth_error cf (length cf - 1) = Some last_cf /\
    nth_error v (length cf) = Some (fadd last_cf (net_sales_proceeds ev rb)) /\
    net_sales_proceeds ev rb = fsub ev rb /\
    (forall a b, ev ~= a -> rb ~= b -> net_sales_proceeds ev rb ~= a - b).
Proof.
  intros Hlen.
  destruct (exists_last (l := cf)) as (init & lst & ->).
  { intros ->. simpl in Hlen. lia. }
  rewrite cashflows_snoc.
  exists (fneg eq0 :: init ++ [fadd lst (net_sales_proceeds ev rb)]), lst.
  rewrite length_app. simpl length.
  split; [reflexivity|].
  split; [rewrite length_app; simpl; lia|].
  split; [reflexivity|].
  split; [intros e He; apply fneg_repr; exact He|].
  split.
  - intros k Hk. destruct k as [|k]; [lia|].
    replace (S k - 1)%nat with k by lia. cbn [nth_error].
    rewrite !nth_error_app1 by lia. reflexivity.
  - split; [apply nth_error_snoc_new; lia|].
    split.
    + replace (length init + 1)%nat with (S (length init)) by lia.
      simpl nth_error. apply nth_error_snoc_new. reflexivity.
    + split; [reflexivity|].
      intros a b Ha Hb. apply fsub_repr; assumption.
Qed.

Lemma equity_cashflow_vector_witness :
  exists v last_cf,
    cashflows (Fin 400) [Fin 20; Fin 30] (net_sales_proceeds (Fin 100) (Fin 250))
    = Ok v /\
    length v = S (length [Fin 20; Fin 30]) /\
    nth_error v 0 = Some (fneg (Fin 400)) /\
    (forall e, Fin 400 ~= e -> fneg (Fin 400) ~= - e) /\
    (forall k, (1 <= k < length [Fin 20; Fin 30])%nat ->
               nth_error v k = nth_error [Fin 20; Fin 30] (k - 1)) /\
    nth_error [Fin 20; Fin 30] (length [Fin 20; Fin 30] - 1) = Some last_cf /\
    nth_error v (length [Fin 20; Fin 30])
    = Some (fadd last_cf (net_sales_proceeds (Fin 100) (Fin 250))) /\
    net_sales_proceeds (Fin 100) (Fin 250) = fsub (Fin 100) (Fin 250) /\
    (forall a b, Fin 100 ~= a -> Fin 250 ~= b ->
                 net_sales_proceeds (Fin 100) (Fin 250) ~= a - b).
Proof.
  apply (equity_cashflow_vector (Fin 400) [Fin 20; Fin 30] (Fin 100) (Fin 250)).
  simpl. lia.
Defined.

(** ** IRR *)

Lemma irr_of_failure (npf_irr : list num -> outcome num) (cfs : list num) :
  fails (npf_irr cfs) -> irr npf_irr cfs = None.
Proof.
  unfold irr. destruct (npf_irr cfs); [intros [] | reflexivity].
Qed.

Lemma irr_of_value (npf_irr : list num -> outcome num) (cfs : list num) (v : num) :
  npf_irr cfs = Ok v -> irr npf_irr cfs = Some v.
Proof. unfold irr. intros ->. reflexivity. Qed.

(** What the tile does with the values the wrapper lets through: a NaN is
    formatted like any rate, a rate of exactly zero is shown as "N/A". *)
Lemma show_irr_nan : show_irr (Some NaN) = Percent NaN.
Proof. reflexivity. Qed.

Lemma show_irr_zero : show_irr (Some (Fin 0)) = NotAvailable.
Proof. reflexivity. Qed.

(** ** The equity multiple *)

Lemma fold_fadd_repr (xs : list num) (qs : list Q) :
  represents_all xs qs ->
  forall acc a, acc ~= a -> fold_left fadd xs acc ~= a + Qsum qs.
Proof.
  induction 1 as [|x q xs qs Hx _ IH]; intros acc a Ha; simpl.
  - eapply represents_comp; [reflexivity | | exact Ha]. ring.
  - eapply represents_comp;
      [reflexivity | | exact (IH _ _ (fadd_repr _ _ _ _ Ha Hx))].
    ring.
Qed.

Lemma py_sum_repr (xs : list num) (qs : list Q) :
  represents_all xs qs -> py_sum xs ~= Qsum qs.
Proof.
  intros H. unfold py_sum.
  eapply represents_comp;
    [reflexivity | | exact (fold_fadd_repr xs qs H _ _ (of_Z_repr 0))].
  change (inject_Z 0) with 0. ring.
Qed.

Lemma positive_inflows_all (qs : list Q) :
  Forall (fun q => 0 <= q) qs -> positive_inflows qs == Qsum qs.
Proof.
  unfold positive_inflows.
  induction 1 as [|q qs Hq _ IH]; simpl; [reflexivity|].
  destruct (Qltb 0 q) eqn:E; simpl.
  - rewrite IH. reflexivity.
  - apply Qltb_false in E. rewrite IH.
    assert (q == 0) by lra. lra.
Qed.

(** C9 (as stated).  With a negative interim cash flow the code's multiple
    is not the sum of the positive inflows over the outflow: for
    [[-100; -10; 130]] it is [120/100], not [130/100]. *)
Lemma equity_multiple_counterexample :
  exists m,
    equity_multiple [Fin (-100); Fin (-10); Fin 130] = Ok m /\
    m ~= 120 / 100 /\
    equity_multiple_positive_inflows 100 [-10; 130] == 130 / 100 /\
    ~ 120 / 100 == equity_multiple_positive_inflows 100 [-10; 130].
Proof.
  eexists. split; [reflexivity|].
  split; [split; vm_compute; reflexivity|].
  split; [vm_compute; reflexivity|].
  vm_compute. discriminate.
Qed.

(** C9 (amended).  The equity multiple is the sum of all cash flows at
    index >= 1, negative ones included, divided by the initial equity
    outflow; it is the sum of the positive inflows over that outflow when
    no cash flow at index >= 1 is negative. *)
Theorem equity_multiple_all_flows (c0 : num) (rest : list num)
        (e : Q) (qs : list Q) :
  c0 ~= - e -> ~ e == 0 -> represents_all rest qs ->
  exists m,
    equity_multiple (c0 :: rest) = Ok m /\
    m = fdiv (py_sum rest) (fneg c0) /\
    m ~= Qsum qs / e /\
    (Forall (fun q => 0 <= q) qs ->
     m ~= equity_multiple_positive_inflows e qs).
Proof.
  intros Hc He Hrest.
  assert (Hm : fdiv (py_sum rest) (fneg c0) ~= Qsum qs / e).
  { apply fdiv_repr; [apply py_sum_repr; exact Hrest | | exact He].
    eapply represents_comp; [reflexivity | | exact (fneg_repr _ _ Hc)].
    ring. }
  exists (fdiv (py_sum rest) (fneg c0)).
  split.
  - unfold equity_multiple.
    pose proof (py_index_nth (c0 :: rest) 0 c0 eq_refl) as E.
    change (Z.of_nat 0) with 0%Z in E. rewrite E. reflexivity.
  - split; [reflexivity|]. split; [exact Hm|].
    intros Hpos. unfold equity_multiple_positive_inflows.
    rewrite (positive_inflows_all qs Hpos). exact Hm.
Qed.

Lemma equity_multiple_all_flows_witness :
  exists m,
    equity_multiple (Fin (-100) :: [Fin (-10); Fin 130]) = Ok m /\
    m = fdiv (py_sum [Fin (-10); Fin 130]) (fneg (Fin (-100))) /\
    m ~= Qsum [-10; 130] / 100 /\
    (Forall (fun q => 0 <= q) [-10; 130] ->
     m ~= equity_multiple_positive_inflows 100 [-10; 130]).
Proof.
  apply (equity_multiple_all_flows (Fin (-100)) [Fin (-10); Fin 130]
           100 [-10; 130]).
  - split; reflexivity.
  - unfold Qeq. simpl. lia.
  - repeat (constructor; [split; reflexivity|]). constructor.
Defined.

(** ** Expense growth *)

(** C10.  The expense-growth slider is read and never used: two runs that
    agree on every other input return the same result, field by field. *)
Theorem expense_growth_has_no_effect
        (npf_irr : list num -> outcome num) (i j : Inputs) :
  same_but_expense_growth i j -> run npf_irr i = run npf_irr j.
Proof.
  destruct i as [pp n1 rg eg ec lv ir am], j as [pp' n1' rg' eg' ec' lv' ir' am'].
  unfold same_but_expense_growth. cbn [purchase_price noi_year_1
    rent_growth_slider exit_cap_slider ltv interest_rate_slider amort_years].
  intros (-> & -> & -> & -> & -> & -> & ->).
  unfold run, loan_amount, equity, interest_rate, rent_growth, exit_cap.
  cbn [purchase_price noi_year_1 rent_growth_slider exit_cap_slider ltv
       interest_rate_slider amort_years].
  reflexivity.
Qed.

Lemma expense_growth_has_no_effect_witness :
  run irr_raises (mkInputs 1000 100 2 2 6 0 6 30)
  = run irr_raises (mkInputs 1000 100 2 5 6 0 6 30).
Proof.
  apply (expense_growth_has_no_effect irr_raises).
  repeat split.
Defined.

(** * Further properties of the schedule *)

(** ** Strict monotonicity for a positive loan *)

Lemma annuity_exceeds_interest (P r : Q) (n : Z) :
  0 < P -> 0 <= r -> (0 < n)%Z -> r * P < annuity_payment P r n.
Proof.
  intros HP Hr Hn. unfold annuity_payment.
  destruct (Qeq_bool r 0) eqn:E.
  - apply Qeq_bool_iff in E. rewrite E.
    assert (Hpos : 0 < inject_Z n).
    { change 0 with (inject_Z 0). rewrite <- Zlt_Qlt. exact Hn. }
    setoid_replace (0 * P) with 0 by ring.
    apply Qlt_shift_div_l; [exact Hpos | lra].
  - apply Qeq_bool_false in E.
    assert (Hrpos : 0 < r) by (apply Qle_lt_or_eq in Hr; destruct Hr as [H|H];
                               [exact H | exfalso; apply E; symmetry; exact H]).
    pose proof (growth_factor_gt_1 r n Hrpos Hn) as Ht.
    rewrite Qpower_opp.
    set (t := (1 + r) ^ n) in *.
    assert (Hinv : 0 < / t) by (apply Qinv_lt_0_compat; lra).
    assert (Hlt1 : / t < 1).
    { apply Qmult_lt_r with (z := t); [lra|].
      rewrite Qmult_comm, Qmult_inv_r by lra. lra. }
    apply Qlt_shift_div_l; [lra|].
    assert (0 < r * P) by (apply Qmult_lt_0_compat; assumption).
    nra.
Qed.

Section StrictRunningBalance.

Variables (p r P : Q).
Hypothesis rate_nonneg : 0 <= r.
Hypothesis interest_exceeded : r * P < p.

Lemma bal_after_step_lt (k : nat) : bal_after (S k) p r P < bal_after k p r P.
Proof.
  rewrite bal_after_S.
  pose proof (bal_after_le_principal p r P rate_nonneg
                (Qlt_le_weak _ _ interest_exceeded) k) as Hle.
  assert (bal_after k p r P * r <= P * r).
  { apply Qmult_le_compat_r; assumption. }
  lra.
Qed.

Lemma bal_after_strictly_antitone (j k : nat) :
  (j < k)%nat -> bal_after k p r P < bal_after j p r P.
Proof.
  induction 1 as [|k Hjk IH].
  - apply bal_after_step_lt.
  - pose proof (bal_after_step_lt k). lra.
Qed.

End StrictRunningBalance.

(** Every field of record [i] (counting from 1) in terms of the rational
    recurrence. *)
Lemma schedule_record (pay rate loan : num) (p r P : Q) (h i : nat) :
  pay ~= p -> rate ~= r -> loan ~= P -> (1 <= i <= h)%nat ->
  exists rec,
    nth_error (schedule_loop h pay rate loan) (i - 1) = Some rec /\
    payment rec = pay /\
    interest rec ~= bal_after (i - 1) p r P * r /\
    principal rec ~= p - bal_after (i - 1) p r P * r /\
    balance rec ~= floor0 (bal_after i p r P).
Proof.
  intros Hp Hr HP Hi.
  eexists. split; [apply schedule_loop_nth; lia|].
  cbv zeta. cbn [payment interest principal balance].
  replace (S (i - 1)) with i by lia.
  pose proof (running_balance_repr (i - 1) _ _ _ _ _ _ Hp Hr HP) as Hb.
  split; [reflexivity|].
  split; [apply fmul_repr; assumption|].
  split; [apply fsub_repr; [exact Hp | apply fmul_repr; assumption]|].
  apply py_max_repr. apply running_balance_repr; assumption.
Qed.

Lemma bal_after_within_term (P r : Q) (n : Z) (k : nat) :
  0 <= P -> 0 <= r -> (0 < n)%Z -> (k <= Z.to_nat n)%nat ->
  0 <= bal_after k (annuity_payment P r n) r P.
Proof.
  intros HP Hr Hn Hk. rewrite <- (Z2Nat.id n) by lia.
  apply bal_after_nonneg_within_term; try assumption; lia.
Qed.

Lemma bal_after_term (P r : Q) (n : Z) :
  0 <= r -> (0 < n)%Z ->
  bal_after (Z.to_nat n) (annuity_payment P r n) r P == 0.
Proof.
  intros Hr Hn. rewrite <- (Z2Nat.id n) at 2 by lia.
  apply annuity_amortizes; [exact Hr | lia].
Qed.

(** *** Principal repaid *)

Lemma finite_represents_all (xs : list num) :
  Forall (fun x => finite x = true) xs -> represents_all xs (map to_Q xs).
Proof.
  induction 1 as [|x xs Hx _ IH]; simpl; constructor.
  - split; [exact Hx | reflexivity].
  - exact IH.
Qed.

Lemma principal_portions (k : nat) (pay rate bal : num) (p r b : Q) :
  pay ~= p -> rate ~= r -> bal ~= b ->
  Forall (fun x => finite x = true)
         (map principal (schedule_loop k pay rate bal)) /\
  Qsum (map to_Q (map principal (schedule_loop k pay rate bal)))
  == b - bal_after k p r b.
Proof.
  intros Hp Hr. revert bal b.
  induction k as [|k IH]; intros bal b Hb.
  - split; [constructor | simpl; ring].
  - assert (Hpr : fsub pay (fmul bal rate) ~= p - b * r)
      by (apply fsub_repr; [exact Hp | apply fmul_repr; assumption]).
    assert (Hb' : fsub bal (fsub pay (fmul bal rate)) ~= b - (p - b * r))
      by (apply fsub_repr; assumption).
    destruct (IH _ _ Hb') as [Hfin Hsum].
    cbn [schedule_loop map principal Qsum fold_right].
    split.
    + constructor; [apply Hpr | exact Hfin].
    + unfold Qsum in Hsum. rewrite Hsum.
      destruct Hpr as [_ ->].
      change (bal_after (S k) p r b) with (bal_after k p r (b - (p - b * r))).
      ring.
Qed.

(** ** The payment and the amortization term *)

Lemma annuity_payment_antitone (P r : Q) (n m : Z) :
  0 <= P -> 0 <= r -> (0 < n <= m)%Z ->
  annuity_payment P r m <= annuity_payment P r n.
Proof.
  intros HP Hr Hnm. unfold annuity_payment.
  destruct (Qeq_bool r 0) eqn:E.
  - assert (Hn : 0 < inject_Z n)
      by (change 0 with (inject_Z 0); rewrite <- Zlt_Qlt; lia).
    assert (Hm : 0 < inject_Z m)
      by (change 0 with (inject_Z 0); rewrite <- Zlt_Qlt; lia).
    assert (Hle : inject_Z n <= inject_Z m) by (rewrite <- Zle_Qle; lia).
    apply Qle_shift_div_r; [exact Hm|].
    assert (Hq : 0 <= P / inject_Z n)
      by (apply Qle_shift_div_l; [exact Hn | lra]).
    assert (Hqn : P / inject_Z n * inject_Z n == P) by (field; lra).
    nra.
  - apply Qeq_bool_false in E.
    assert (Hrpos : 0 < r) by (apply Qle_lt_or_eq in Hr; destruct Hr as [H|H];
                               [exact H | exfalso; apply E; symmetry; exact H]).
    assert (Ha : (1 + r) ^ (- n) < 1).
    { change 1 with ((1 + r) ^ 0) at 2.
      apply Qpower_lt_compat_l; [lia | lra]. }
    assert (Hb : (1 + r) ^ (- m) <= (1 + r) ^ (- n))
      by (apply Qpower_le_compat_l; [lia | lra]).
    set (a := (1 + r) ^ (- n)) in *. set (b := (1 + r) ^ (- m)) in *.
    apply Qle_shift_div_r; [lra|].
    assert (Hq : 0 <= P * r / (1 - a)).
    { apply Qle_shift_div_l; [lra|].
      assert (0 <= P * r) by (apply Qmult_le_0_compat; lra). lra. }
    assert (Hqa : P * r / (1 - a) * (1 - a) == P * r) by (field; lra).
    nra.
Qed.

Lemma annuity_payment_one_period (P r : Q) :
  0 <= r -> annuity_payment P r 1 == P * (1 + r).
Proof.
  intros Hr. unfold annuity_payment.
  destruct (Qeq_bool r 0) eqn:E.
  - apply Qeq_bool_iff in E. rewrite E. change (inject_Z 1) with 1. field.
  - apply Qeq_bool_false in E.
    change ((1 + r) ^ (- (1))) with (/ (1 + r)).
    field. split; lra.
Qed.

(** X7.  The payment computed at line 19 never rises when the
    amortization term gets longer; it covers at least one period's
    interest on the whole loan and is at most the one-period payment
    [P * (1 + r)]. *)
Theorem longer_term_lower_payment (loan rate : num) (P r : Q) (n m : Z) :
  loan ~= P -> rate ~= r -> 0 <= P -> 0 <= r -> (0 < n <= m)%Z ->
  exists pn pm,
    pmt rate n (fneg loan) ~= pn /\
    pmt rate m (fneg loan) ~= pm /\
    pm <= pn /\ r * P <= pm /\ pn <= P * (1 + r).
Proof.
  intros HP Hr HP0 Hr0 Hnm.
  exists (annuity_payment P r n), (annuity_payment P r m).
  split; [apply pmt_annuity; try assumption; lia|].
  split; [apply pmt_annuity; try assumption; lia|].
  split; [apply annuity_payment_antitone; assumption|].
  split; [apply annuity_covers_interest; try assumption; lia|].
  rewrite <- (annuity_payment_one_period P r Hr0).
  apply annuity_payment_antitone; try assumption. lia.
Qed.

Lemma longer_term_lower_payment_witness :
  exists pn pm,
    pmt (Fin (6 # 100)) 20 (fneg (Fin 1000)) ~= pn /\
    pmt (Fin (6 # 100)) 30 (fneg (Fin 1000)) ~= pm /\
    pm <= pn /\ (6 # 100) * 1000 <= pm /\ pn <= 1000 * (1 + (6 # 100)).
Proof.
  apply (longer_term_lower_payment (Fin 1000) (Fin (6 # 100)) 1000 (6 # 100)
           20 30).
  - split; reflexivity.
  - split; reflexivity.
  - unfold Qle. simpl. lia.
  - unfold Qle. simpl. lia.
  - lia.
Defined.

(** ** An amortization term of zero *)

Lemma positive_is_Fin (x : num) (a : Q) :
  x ~= a -> 0 < a -> exists q, x = Fin q /\ 0 < q.
Proof.
  intros [Fx Vx] Ha. destruct x as [q| | | |]; simpl in *; try discriminate.
  - exists q. split; [reflexivity | lra].
  - lra.
Qed.

(** Decide every rational test left in the goal from the hypotheses. *)
Ltac decide_tests :=
  repeat match goal with
         | |- context [Qeq_bool ?a ?b] =>
             let E := fresh "E" in
             destruct (Qeq_bool a b) eqn:E;
             [apply Qeq_bool_iff in E | apply Qeq_bool_false in E];
             unfold inject_Z in *;
             try (exfalso; first [lra | nra | apply E; ring]); cbn
         | |- context [Qltb ?a ?b] =>
             let E := fresh "E" in
             destruct (Qltb a b) eqn:E;
             [apply Qltb_true in E | apply Qltb_false in E];
             unfold inject_Z in *;
             try (exfalso; first [lra | nra]); cbn
         end.

Lemma pmt_zero_term (loan rate : num) (P r : Q) :
  loan ~= P -> rate ~= r -> 0 < P -> 0 < r ->
  pmt rate 0 (fneg loan) = PInf.
Proof.
  intros HP Hr HP0 Hr0.
  destruct (positive_is_Fin _ _ HP HP0) as (a & -> & Ha).
  destruct (positive_is_Fin _ _ Hr Hr0) as (q & -> & Hq).
  unfold pmt, np_where, fsub, of_Z. cbn.
  decide_tests. reflexivity.
Qed.

Lemma schedule_loop_from_neg_inf (k : nat) (q : Q) :
  0 < q ->
  schedule_loop k PInf (Fin q) NInf
  = repeat (mkPeriod PInf NInf PInf (of_Z 0)) k.
Proof.
  intros Hq. induction k as [|k IH]; [reflexivity|].
  cbn [schedule_loop repeat].
  assert (E : fmul NInf (Fin q) = NInf).
  { unfold fmul. cbn. decide_tests. reflexivity. }
  rewrite E.
  change (fsub PInf NInf) with PInf. change (fsub NInf PInf) with NInf.
  rewrite IH. reflexivity.
Qed.

(** * Further properties of the yearly table *)

Lemma coverage_iff (a d : Q) : 0 < d -> (1 <= a / d <-> 0 <= a - d).
Proof.
  intros Hd.
  assert (E : a / d * d == a) by (field; lra).
  split; intros H.
  - assert (1 * d <= a / d * d) by (apply Qmult_le_compat_r; lra). lra.
  - apply Qle_shift_div_l; [exact Hd | lra].
Qed.

(** X9.  In every year the cash flow is the NOI less that year's payment;
    when the payment is positive the DSCR is their quotient, and it is at
    least 1 exactly when the cash flow is not negative. *)
Theorem cash_flow_and_coverage (noi1 g : Q) (growth : num)
        (schedule : list PeriodRecord) (h : nat) :
  growth ~= g -> (h <= length schedule)%nat ->
  exists p,
    project (Fin noi1) growth schedule (py_range 1 (Z.of_nat h + 1)) = Ok p /\
    length (cf_list p) = h /\
    forall k, (1 <= k <= h)%nat ->
      exists x rec a cf,
        nth_error (noi_list p) (k - 1) = Some x /\ x ~= a /\
        nth_error schedule (k - 1) = Some rec /\
        nth_error (cf_list p) (k - 1) = Some cf /\
        forall d, payment rec ~= d ->
          cf ~= a - d /\
          (0 < d ->
           exists c, nth_error (dscr_list p) (k - 1) = Some c /\
                     c ~= a / d /\ (1 <= a / d <-> 0 <= a - d)).
Proof.
  intros Hg Hh.
  destruct (project_projected noi1 g growth schedule Hg h Hh)
    as (p & Ep & _ & Hc & _ & _ & _ & Hrows).
  exists p. split; [exact Ep|]. split; [exact Hc|].
  intros k Hk.
  destruct (Hrows (k - 1)%nat ltac:(lia))
    as (x & rec & Hx & Hrec & Hcf & Hds & Hxr & _).
  exists x, rec, (noi1 * (1 + g) ^ Z.of_nat (k - 1)), (fsub x (payment rec)).
  split; [exact Hx|]. split; [exact Hxr|]. split; [exact Hrec|].
  split; [exact Hcf|].
  intros d Hd. split; [apply fsub_repr; assumption|].
  intros Hpos. eexists. split; [exact Hds|].
  split; [apply fdiv_repr; try assumption; lra|].
  apply coverage_iff. exact Hpos.
Qed.

Lemma cash_flow_and_coverage_witness :
  exists p,
    project (Fin 100) (Fin (2 # 100))
            (schedule_loop 2 (Fin 10) (Fin (1 # 10)) (Fin 100))
            (py_range 1 (Z.of_nat 2 + 1)) = Ok p /\
    length (cf_list p) = 2%nat /\
    forall k, (1 <= k <= 2)%nat ->
      exists x rec a cf,
        nth_error (noi_list p) (k - 1) = Some x /\ x ~= a /\
        nth_error (schedule_loop 2 (Fin 10) (Fin (1 # 10)) (Fin 100)) (k - 1)
        = Some rec /\
        nth_error (cf_list p) (k - 1) = Some cf /\
        forall d, payment rec ~= d ->
          cf ~= a - d /\
          (0 < d ->
           exists c, nth_error (dscr_list p) (k - 1) = Some c /\
                     c ~= a / d /\ (1 <= a / d <-> 0 <= a - d)).
Proof.
  apply (cash_flow_and_coverage 100 (2 # 100) (Fin (2 # 100))
           (schedule_loop 2 (Fin 10) (Fin (1 # 10)) (Fin 100)) 2).
  - split; reflexivity.
  - simpl. lia.
Defined.


(** * Further properties of the equity multiple *)

Lemma Qsum_app (xs ys : list Q) : Qsum (xs ++ ys) == Qsum xs + Qsum ys.
Proof.
  unfold Qsum. induction xs as [|x xs IH]; simpl; [ring|].
  rewrite IH. ring.
Qed.

(** ** A loan of zero *)

Lemma annuity_payment_zero_loan (P r : Q) (n : Z) :
  P == 0 -> annuity_payment P r n == 0.
Proof.
  intros HP. unfold annuity_payment.
  destruct (Qeq_bool r 0); rewrite HP; unfold Qdiv; ring.
Qed.

Lemma bal_after_zero_loan (k : nat) (p r b : Q) :
  p == 0 -> b == 0 -> bal_after k p r b == 0.
Proof.
  intros Hp. revert b. induction k as [|k IH]; intros b Hb; simpl; [exact Hb|].
  apply IH. rewrite Hp, Hb. ring.
Qed.

(** ** Reading the equity multiple *)

(** X17.  For a positive equity outflow the multiple is 1 exactly when
    the later cash flows add up to the equity, and above 1 exactly when
    they add up to more. *)
Theorem equity_multiple_break_even (c0 : num) (rest : list num)
        (e : Q) (qs : list Q) :
  c0 ~= - e -> 0 < e -> represents_all rest qs ->
  exists m q,
    equity_multiple (c0 :: rest) = Ok m /\ m ~= q /\
    (q == 1 <-> Qsum qs == e) /\
    (1 < q <-> e < Qsum qs).
Proof.
  intros Hc He Hrest.
  exists (fdiv (py_sum rest) (fneg c0)), (Qsum qs / e).
  split.
  - unfold equity_multiple.
    pose proof (py_index_nth (c0 :: rest) 0 c0 eq_refl) as E.
    change (Z.of_nat 0) with 0%Z in E. rewrite E. reflexivity.
  - split.
    + apply fdiv_repr; [apply py_sum_repr; exact Hrest | | lra].
      eapply represents_comp; [reflexivity | | exact (fneg_repr _ _ Hc)].
      ring.
    + assert (E : Qsum qs / e * e == Qsum qs) by (field; lra).
      set (q := Qsum qs / e) in *. set (t := Qsum qs) in *.
      split; split; intros H.
      * rewrite <- E, H. ring.
      * apply (Qmult_inj_r _ _ e); [lra|]. rewrite E, H. ring.
      * assert (1 * e < q * e) by (apply Qmult_lt_compat_r; lra). lra.
      * apply Qlt_shift_div_l; lra.
Qed.

Lemma equity_multiple_break_even_witness :
  exists m q,
    equity_multiple (Fin (-100) :: [Fin (-10); Fin 130]) = Ok m /\ m ~= q /\
    (q == 1 <-> Qsum [-10; 130] == 100) /\
    (1 < q <-> 100 < Qsum [-10; 130]).
Proof.
  apply (equity_multiple_break_even (Fin (-100)) [Fin (-10); Fin 130]
           100 [-10; 130]).
  - split; reflexivity.
  - reflexivity.
  - repeat (constructor; [split; reflexivity|]). constructor.
Defined.

(** ** Shorter loops *)

Lemma schedule_loop_prefix (k m : nat) (pay r bal : num) :
  (k <= m)%nat ->
  firstn k (schedule_loop m pay r bal) = schedule_loop k pay r bal.
Proof.
  revert m bal. induction k as [|k IH]; intros m bal Hkm; [reflexivity|].
  destruct m as [|m]; [lia|].
  cbn [schedule_loop firstn]. rewrite IH by lia. reflexivity.
Qed.


(** * The schedule built by lines 19-33 *)

(** The payment of line 19 for a non-negative rate and a positive term. *)
Lemma line19_payment (loan rate : num) (P r : Q) (n : Z) :
  loan ~= P -> rate ~= r -> 0 <= r -> (0 < n)%Z ->
  pmt rate n (fneg loan) ~= annuity_payment P r n.
Proof. intros HP Hr Hr0 Hn. apply pmt_annuity; assumption. Qed.

(** C1.  For a rate [r > 0] and an amortization term [n > 0] the payment
    of line 19 is [P * r / (1 - (1+r)^(-n))]; when the loop of lines
    24-33 is run with it for exactly [n] periods it builds [n] records
    that all carry this payment, whose principal portions add up to
    exactly the loan amount, and the last of which records a balance of
    zero. *)
Theorem payment_fully_amortizes (loan rate : num) (P r : Q) (n : Z) :
  loan ~= P -> rate ~= r -> 0 <= P -> 0 < r -> (0 < n)%Z ->
  exists pay sched last qs,
    pay = pmt rate n (fneg loan) /\
    sched = schedule_loop (Z.to_nat n) pay rate loan /\
    pay ~= P * r / (1 - (1 + r) ^ (- n)) /\
    length sched = Z.to_nat n /\
    (forall rec, In rec sched -> payment rec = pay) /\
    represents_all (map principal sched) qs /\
    Qsum qs == P /\
    py_index sched (-1) = Ok last /\
    balance last ~= 0.
Proof.
  intros HP Hr HP0 Hrpos Hn.
  assert (Hr0 : 0 <= r) by lra.
  pose proof (line19_payment loan rate P r n HP Hr Hr0 Hn) as Hpay.
  set (pay := pmt rate n (fneg loan)) in *.
  set (p := annuity_payment P r n) in *.
  set (sched := schedule_loop (Z.to_nat n) pay rate loan).
  destruct (principal_portions (Z.to_nat n) pay rate loan p r P Hpay Hr HP)
    as [Hfin Hsum].
  pose proof (bal_after_term P r n Hr0 Hn) as Hend. fold p in Hend.
  destruct (schedule_record pay rate loan p r P (Z.to_nat n) (Z.to_nat n)
              Hpay Hr HP ltac:(lia)) as (last & Hlast & _ & _ & _ & Hbal).
  exists pay, sched, last, (map to_Q (map principal sched)).
  split; [reflexivity|]. split; [reflexivity|].
  split.
  { unfold p, annuity_payment in Hpay.
    rewrite (proj2 (Qeq_bool_false r 0)) in Hpay by lra. exact Hpay. }
  split; [apply schedule_loop_length|].
  split.
  { intros rec Hin. apply In_nth_error in Hin. destruct Hin as [j Hj].
    assert (Hlt : (j < Z.to_nat n)%nat).
    { rewrite <- (schedule_loop_length (Z.to_nat n) pay rate loan).
      apply nth_error_Some. fold sched. congruence. }
    unfold sched in Hj. rewrite schedule_loop_nth in Hj by exact Hlt.
    injection Hj as <-. reflexivity. }
  split; [apply finite_represents_all; exact Hfin|].
  split; [fold sched in Hsum; rewrite Hsum, Hend; ring|].
  split.
  - apply py_index_last.
    replace (length sched) with (Z.to_nat n)
      by (symmetry; apply schedule_loop_length).
    exact Hlast.
  - eapply represents_comp; [reflexivity | | exact Hbal].
    rewrite Hend. reflexivity.
Qed.

Lemma payment_fully_amortizes_witness :
  exists pay sched last qs,
    pay = pmt (Fin (1 # 2)) 3 (fneg (Fin 100)) /\
    sched = schedule_loop (Z.to_nat 3) pay (Fin (1 # 2)) (Fin 100) /\
    pay ~= 100 * (1 # 2) / (1 - (1 + (1 # 2)) ^ (- 3)) /\
    length sched = Z.to_nat 3 /\
    (forall rec, In rec sched -> payment rec = pay) /\
    represents_all (map principal sched) qs /\
    Qsum qs == 100 /\
    py_index sched (-1) = Ok last /\
    balance last ~= 0.
Proof.
  apply (payment_fully_amortizes (Fin 100) (Fin (1 # 2)) 100 (1 # 2) 3).
  - split; reflexivity.
  - split; reflexivity.
  - unfold Qle. simpl. lia.
  - reflexivity.
  - reflexivity.
Defined.

(** C2 (as stated, on recorded balances for every period): with principal
    100, rate 1/2, a one-period amortization and three periods the
    payment of line 19 is 150 and the loan is repaid in period 1; the
    loop records a balance of 0 in periods 1 and 2, and [0] is not
    [0 - (150 - 0 * 1/2)]. *)
Lemma recorded_recurrence_counterexample :
  exists prev cur,
    nth_error (schedule_loop 3 (pmt (Fin (1 # 2)) 1 (fneg (Fin 100)))
                             (Fin (1 # 2)) (Fin 100)) 0 = Some prev /\
    nth_error (schedule_loop 3 (pmt (Fin (1 # 2)) 1 (fneg (Fin 100)))
                             (Fin (1 # 2)) (Fin 100)) 1 = Some cur /\
    balance prev ~= 0 /\ balance cur ~= 0 /\ payment cur ~= 150 /\
    ~ 0 == 0 - (150 - 0 * (1 # 2)).
Proof.
  eexists. eexists.
  split; [reflexivity|].
  split; [reflexivity|].
  repeat split; try (vm_compute; reflexivity).
  vm_compute. discriminate.
Qed.

(** C2 (amended).  For principal [P >= 0], rate [r >= 0] and amortization
    term [n > 0], and any horizon, the loop run with the payment of line
    19 gives every record the annuity payment and a non-negative
    recorded balance; the recorded balances are non-increasing, and up
    to period [n] they satisfy
    [balance[i] = balance[i-1] - (payment - balance[i-1] * rate)]. *)
Theorem recorded_balances (loan rate : num) (P r : Q) (n h : Z) :
  loan ~= P -> rate ~= r -> 0 <= P -> 0 <= r -> (0 < n)%Z ->
  exists sched p,
    sched = schedule_loop (Z.to_nat h) (pmt rate n (fneg loan)) rate loan /\
    length sched = Z.to_nat h /\
    forall i, (1 <= i <= Z.to_nat h)%nat ->
      exists rec b,
        nth_error sched (i - 1) = Some rec /\
        payment rec ~= p /\ balance rec ~= b /\ 0 <= b /\
        ((2 <= i)%nat ->
         exists prev b',
           nth_error sched (i - 2) = Some prev /\
           balance prev ~= b' /\ b <= b' /\
           ((i <= Z.to_nat n)%nat -> b == b' - (p - b' * r))).
Proof.
  intros HP Hr HP0 Hr0 Hn.
  pose proof (line19_payment loan rate P r n HP Hr Hr0 Hn) as Hpay.
  set (pay := pmt rate n (fneg loan)) in *.
  set (p := annuity_payment P r n) in *.
  assert (Hcov : r * P <= p) by (apply annuity_covers_interest; assumption).
  assert (Hrec : forall k, py_max (running_balance k pay rate loan) (of_Z 0)
                           ~= floor0 (bal_after k p r P)).
  { intros k. apply py_max_repr. apply running_balance_repr; assumption. }
  assert (Hnn : forall k, (k <= Z.to_nat n)%nat -> 0 <= bal_after k p r P).
  { intros k Hk. apply bal_after_within_term; assumption. }
  exists (schedule_loop (Z.to_nat h) pay rate loan), p.
  split; [reflexivity|].
  split; [apply schedule_loop_length|].
  intros i Hi.
  eexists. exists (floor0 (bal_after i p r P)).
  split; [apply schedule_loop_nth; lia|].
  cbv zeta. cbn [payment balance].
  replace (S (i - 1)) with i by lia.
  split; [exact Hpay|]. split; [apply Hrec|]. split; [apply floor0_nonneg|].
  intros Hi2.
  eexists. exists (floor0 (bal_after (i - 1) p r P)).
  split; [apply schedule_loop_nth; lia|].
  cbv zeta. cbn [balance].
  replace (S (i - 2)) with (i - 1)%nat by lia.
  split; [apply Hrec|]. split.
  - apply floor0_mono.
    replace i with (S (i - 1)) at 1 by lia.
    apply bal_after_step_le; assumption.
  - intros Hin.
    rewrite (floor0_id _ (Hnn i Hin)).
    rewrite (floor0_id _ (Hnn (i - 1)%nat ltac:(lia))).
    replace i with (S (i - 1)) at 1 by lia.
    apply bal_after_S.
Qed.

Lemma recorded_balances_witness :
  exists sched p,
    sched = schedule_loop (Z.to_nat 2) (pmt (Fin (1 # 2)) 3 (fneg (Fin 100)))
                          (Fin (1 # 2)) (Fin 100) /\
    length sched = Z.to_nat 2 /\
    forall i, (1 <= i <= Z.to_nat 2)%nat ->
      exists rec b,
        nth_error sched (i - 1) = Some rec /\
        payment rec ~= p /\ balance rec ~= b /\ 0 <= b /\
        ((2 <= i)%nat ->
         exists prev b',
           nth_error sched (i - 2) = Some prev /\
           balance prev ~= b' /\ b <= b' /\
           ((i <= Z.to_nat 3)%nat -> b == b' - (p - b' * (1 # 2)))).
Proof.
  apply (recorded_balances (Fin 100) (Fin (1 # 2)) 100 (1 # 2) 3 2).
  - split; reflexivity.
  - split; reflexivity.
  - unfold Qle. simpl. lia.
  - unfold Qle. simpl. lia.
  - reflexivity.
Defined.

(** ** Arguments the specification calls invalid *)

Lemma annuity_payment_opp (P r : Q) (n : Z) :
  annuity_payment (- P) r n == - annuity_payment P r n.
Proof.
  unfold annuity_payment. destruct (Qeq_bool r 0); unfold Qdiv; ring.
Qed.

Lemma bal_after_opp (k : nat) (p r b : Q) :
  bal_after k (- p) r (- b) == - bal_after k p r b.
Proof.
  revert b. induction k as [|k IH]; intros b; simpl; [reflexivity|].
  rewrite <- IH. apply bal_after_comp; try reflexivity. ring.
Qed.

Lemma Qpower_nat_below_1 (q : Q) (k : nat) :
  0 < q -> q < 1 -> 0 < q ^ Z.of_nat (S k) /\ q ^ Z.of_nat (S k) < 1.
Proof.
  intros H0 H1. induction k as [|k [IHa IHb]].
  - change (Z.of_nat 1) with 1%Z. rewrite Qpower_1_r. split; assumption.
  - rewrite Qpower_nat_S. split; [apply Qmult_lt_0_compat; assumption | nra].
Qed.

Lemma Qpower_below_1 (q : Q) (n : Z) :
  0 < q -> q < 1 -> (0 < n)%Z -> 0 < q ^ n /\ q ^ n < 1.
Proof.
  intros H0 H1 Hn. rewrite <- (Z2Nat.id n) by lia.
  replace (Z.to_nat n) with (S (Z.to_nat n - 1)) by lia.
  apply Qpower_nat_below_1; assumption.
Qed.

(** The annuity formula and its amortization need only a non-zero rate
    and a growth factor [(1+r)^n] other than 0 and 1. *)
Lemma pmt_annuity_rate (rate loan : num) (P r : Q) (n : Z) :
  rate ~= r -> loan ~= P -> ~ r == 0 -> (0 <= n)%Z ->
  ~ (1 + r) ^ n == 1 -> ~ (1 + r) ^ n == 0 ->
  pmt rate n (fneg loan) ~= P * r / (1 - (1 + r) ^ (- n)).
Proof.
  intros Hr HP Hr0 Hn Ht1 Ht0.
  pose proof (pmt_repr_rate rate loan r P n Hr HP Hr0 (or_introl Hn) Ht1) as H.
  eapply represents_comp; [reflexivity | | exact H].
  rewrite Qpower_opp. set (t := (1 + r) ^ n) in *.
  field. repeat split; try assumption.
  intros E. apply Ht1. lra.
Qed.

Lemma annuity_amortizes_rate (P r : Q) (n : nat) :
  ~ r == 0 -> ~ (1 + r) ^ Z.of_nat n == 1 -> ~ (1 + r) ^ Z.of_nat n == 0 ->
  bal_after n (P * r / (1 - (1 + r) ^ (- Z.of_nat n))) r P == 0.
Proof.
  intros Hr Ht1 Ht0.
  apply (Qmult_integral_l r); [exact Hr|].
  rewrite bal_after_closed, Qpower_opp.
  set (t := (1 + r) ^ Z.of_nat n) in *.
  field. repeat split; try assumption.
  intros E. apply Ht1. lra.
Qed.

Lemma schedule_loop_payment (k : nat) (pay rate bal : num) (rec : PeriodRecord) :
  In rec (schedule_loop k pay rate bal) -> payment rec = pay.
Proof.
  revert bal. induction k as [|k IH]; intros bal; [intros []|].
  cbn [schedule_loop]. intros [<- | Hin]; [reflexivity | eapply IH; exact Hin].
Qed.

Lemma zero_term_loop (loan rate : num) (P r : Q) (k : nat) :
  loan ~= P -> rate ~= r -> 0 < P -> 0 < r ->
  forall rec, In rec (schedule_loop k (pmt rate 0 (fneg loan)) rate loan) ->
    payment rec = PInf /\ principal rec = PInf /\ balance rec = of_Z 0.
Proof.
  intros HP Hr HP0 Hr0.
  rewrite (pmt_zero_term loan rate P r HP Hr HP0 Hr0).
  destruct (positive_is_Fin _ _ HP HP0) as (a & -> & Ha).
  destruct (positive_is_Fin _ _ Hr Hr0) as (q & -> & Hq).
  destruct k as [|k]; [intros rec []|].
  cbn [schedule_loop].
  assert (E : fsub (Fin a) (fsub PInf (fmul (Fin a) (Fin q))) = NInf).
  { unfold fmul. cbn. decide_tests. reflexivity. }
  rewrite E, (schedule_loop_from_neg_inf k q Hq).
  intros rec [<- | Hin].
  - cbn [payment principal balance].
    split; [reflexivity|]. split; [|reflexivity].
    unfold fmul. cbn. decide_tests. reflexivity.
  - apply repeat_spec in Hin. subst rec. repeat split.
Qed.

(** C3 (as stated).  The statements of the function check nothing: with
    a principal of -100 (rate 1/2, one period) the payment of line 19 is
    -150 and the loop builds a record with it; with a horizon of 0 the
    loop builds the empty schedule.  No input is refused. *)
Lemma invalid_input_counterexample :
  (exists rec,
     schedule_loop (Z.to_nat 1) (pmt (Fin (1 # 2)) 1 (fneg (Fin (-100))))
                   (Fin (1 # 2)) (Fin (-100)) = [rec] /\
     payment rec ~= -150 /\ balance rec ~= 0) /\
  schedule_loop (Z.to_nat 0) (pmt (Fin (1 # 2)) 1 (fneg (Fin 100)))
                (Fin (1 # 2)) (Fin 100) = [].
Proof.
  split; [|reflexivity].
  eexists. split; [reflexivity|].
  split; split; vm_compute; reflexivity.
Qed.

(** C3 (amended).  The function has no validation and no [InvalidInput]:
    its statements compute with whatever floats they are given.
    - A negative principal (rate [>= 0], term [> 0]): one record per
      period, each with the negative annuity payment and, up to the end
      of the term, a recorded balance of 0.
    - A negative rate between -1 and 0 (term [> 0]): the payment is still
      [P * r / (1 - (1+r)^(-n))] and over [n] periods the principal
      portions add up to the loan.
    - A term of 0 (positive principal and rate): the payment is plus
      infinity and every recorded balance is 0.
    - A horizon [<= 0]: the empty schedule. *)
Theorem no_input_validation :
  (forall (loan rate : num) (P r : Q) (n h : Z),
      loan ~= P -> rate ~= r -> P < 0 -> 0 <= r -> (0 < n)%Z ->
      exists sched p,
        sched = schedule_loop (Z.to_nat h) (pmt rate n (fneg loan)) rate loan /\
        length sched = Z.to_nat h /\ p < 0 /\
        forall i, (1 <= i <= Z.to_nat h)%nat -> (i <= Z.to_nat n)%nat ->
          exists rec, nth_error sched (i - 1) = Some rec /\
                      payment rec ~= p /\ balance rec ~= 0) /\
  (forall (loan rate : num) (P r : Q) (n : Z),
      loan ~= P -> rate ~= r -> - (1) < r -> r < 0 -> (0 < n)%Z ->
      exists pay sched qs,
        pay = pmt rate n (fneg loan) /\
        sched = schedule_loop (Z.to_nat n) pay rate loan /\
        pay ~= P * r / (1 - (1 + r) ^ (- n)) /\
        length sched = Z.to_nat n /\
        represents_all (map principal sched) qs /\ Qsum qs == P) /\
  (forall (loan rate : num) (P r : Q) (h : Z),
      loan ~= P -> rate ~= r -> 0 < P -> 0 < r ->
      exists sched,
        sched = schedule_loop (Z.to_nat h) (pmt rate 0 (fneg loan)) rate loan /\
        length sched = Z.to_nat h /\
        forall rec, In rec sched ->
          payment rec = PInf /\ balance rec = of_Z 0) /\
  (forall (pay rate loan : num) (h : Z),
      (h <= 0)%Z -> schedule_loop (Z.to_nat h) pay rate loan = []).
Proof.
  split; [|split; [|split]].
  - intros loan rate P r n h HP Hr HP0 Hr0 Hn.
    pose proof (line19_payment loan rate P r n HP Hr Hr0 Hn) as Hpay.
    set (pay := pmt rate n (fneg loan)) in *.
    set (p := annuity_payment P r n) in *.
    assert (HP' : 0 < - P) by lra.
    pose proof (annuity_exceeds_interest (- P) r n HP' Hr0 Hn) as Hexc.
    assert (Hp : p == - annuity_payment (- P) r n).
    { unfold p. rewrite annuity_payment_opp. ring. }
    assert (Hneg : p < 0).
    { assert (0 <= r * - P) by (apply Qmult_le_0_compat; lra). lra. }
    exists (schedule_loop (Z.to_nat h) pay rate loan), p.
    split; [reflexivity|]. split; [apply schedule_loop_length|].
    split; [exact Hneg|].
    intros i Hi Hin.
    destruct (schedule_record pay rate loan p r P (Z.to_nat h) i Hpay Hr HP Hi)
      as (rec & Hrec & Hpr & _ & _ & Hbal).
    exists rec. split; [exact Hrec|]. split; [rewrite Hpr; exact Hpay|].
    eapply represents_comp; [reflexivity | | exact Hbal].
    symmetry. apply floor0_neg.
    assert (E : bal_after i p r P
                == - bal_after i (annuity_payment (- P) r n) r (- P)).
    { rewrite <- bal_after_opp. apply bal_after_comp; [|reflexivity|ring].
      rewrite Hp. reflexivity. }
    rewrite E.
    pose proof (bal_after_within_term (- P) r n i
                  (Qlt_le_weak _ _ HP') Hr0 Hn Hin).
    lra.
  - intros loan rate P r n HP Hr Hlo Hhi Hn.
    assert (Hr0 : ~ r == 0) by lra.
    destruct (Qpower_below_1 (1 + r) n ltac:(lra) ltac:(lra) Hn) as [Ht0 Ht1].
    assert (Hpay : pmt rate n (fneg loan) ~= P * r / (1 - (1 + r) ^ (- n))).
    { apply pmt_annuity_rate; try assumption; try lra. lia. }
    set (pay := pmt rate n (fneg loan)) in *.
    set (p := P * r / (1 - (1 + r) ^ (- n))) in *.
    set (sched := schedule_loop (Z.to_nat n) pay rate loan).
    destruct (principal_portions (Z.to_nat n) pay rate loan p r P Hpay Hr HP)
      as [Hfin Hsum].
    exists pay, sched, (map to_Q (map principal sched)).
    split; [reflexivity|]. split; [reflexivity|]. split; [exact Hpay|].
    split; [apply schedule_loop_length|].
    split; [apply finite_represents_all; exact Hfin|].
    fold sched in Hsum. rewrite Hsum.
    assert (Hend : bal_after (Z.to_nat n) p r P == 0).
    { pose proof (annuity_amortizes_rate P r (Z.to_nat n)) as H.
      rewrite Z2Nat.id in H by lia.
      apply H; try assumption; lra. }
    rewrite Hend. ring.
  - intros loan rate P r h HP Hr HP0 Hr0.
    eexists. split; [reflexivity|]. split; [apply schedule_loop_length|].
    intros rec Hin.
    destruct (zero_term_loop loan rate P r (Z.to_nat h) HP Hr HP0 Hr0 rec Hin)
      as (H1 & _ & H3).
    split; assumption.
  - intros pay rate loan h Hh.
    replace (Z.to_nat h) with 0%nat by lia. reflexivity.
Qed.

Lemma no_input_validation_witness :
  (exists sched p,
      sched = schedule_loop (Z.to_nat 2)
                (pmt (Fin (1 # 2)) 3 (fneg (Fin (-100))))
                (Fin (1 # 2)) (Fin (-100)) /\
      length sched = Z.to_nat 2 /\ p < 0 /\
      forall i, (1 <= i <= Z.to_nat 2)%nat -> (i <= Z.to_nat 3)%nat ->
        exists rec, nth_error sched (i - 1) = Some rec /\
                    payment rec ~= p /\ balance rec ~= 0) /\
  (exists pay sched qs,
      pay = pmt (Fin (- (1 # 2))) 2 (fneg (Fin 100)) /\
      sched = schedule_loop (Z.to_nat 2) pay (Fin (- (1 # 2))) (Fin 100) /\
      pay ~= 100 * - (1 # 2) / (1 - (1 + - (1 # 2)) ^ (- 2)) /\
      length sched = Z.to_nat 2 /\
      represents_all (map principal sched) qs /\ Qsum qs == 100) /\
  (exists sched,
      sched = schedule_loop (Z.to_nat 2) (pmt (Fin (1 # 2)) 0 (fneg (Fin 100)))
                            (Fin (1 # 2)) (Fin 100) /\
      length sched = Z.to_nat 2 /\
      forall rec, In rec sched ->
        payment rec = PInf /\ balance rec = of_Z 0) /\
  schedule_loop (Z.to_nat (-1)) (Fin 150) (Fin (1 # 2)) (Fin 100) = [].
Proof.
  destruct no_input_validation as (HA & HB & HC & HD).
  split; [|split; [|split]].
  - apply (HA (Fin (-100)) (Fin (1 # 2)) (-100) (1 # 2) 3%Z 2%Z).
    + split; reflexivity.
    + split; reflexivity.
    + reflexivity.
    + unfold Qle. simpl. lia.
    + reflexivity.
  - apply (HB (Fin 100) (Fin (- (1 # 2))) 100 (- (1 # 2)) 2%Z).
    + split; reflexivity.
    + split; reflexivity.
    + reflexivity.
    + reflexivity.
    + reflexivity.
  - apply (HC (Fin 100) (Fin (1 # 2)) 100 (1 # 2) 2%Z).
    + split; reflexivity.
    + split; reflexivity.
    + reflexivity.
    + reflexivity.
  - apply HD. lia.
Defined.

(** * DSCR, exit value, equity and IRR on the statements themselves *)

(** C5 (as stated).  With [ltv = 0] the loan is zero and the payment of
    line 19 is [-0.0]; the yearly loop over such a schedule divides by
    it, nothing is raised or flagged, and the DSCR entries are
    infinities. *)
Lemma dscr_zero_debt_service_counterexample :
  exists p,
    project (Fin 100) (rent_growth (mkInputs 1000 100 2 2 6 0 6 30))
      (schedule_loop 2
         (pmt (interest_rate (mkInputs 1000 100 2 2 6 0 6 30)) 30
              (fneg (loan_amount (mkInputs 1000 100 2 2 6 0 6 30))))
         (interest_rate (mkInputs 1000 100 2 2 6 0 6 30))
         (loan_amount (mkInputs 1000 100 2 2 6 0 6 30)))
      (py_range 1 3) = Ok p /\
    map payment
      (schedule_loop 2
         (pmt (interest_rate (mkInputs 1000 100 2 2 6 0 6 30)) 30
              (fneg (loan_amount (mkInputs 1000 100 2 2 6 0 6 30))))
         (interest_rate (mkInputs 1000 100 2 2 6 0 6 30))
         (loan_amount (mkInputs 1000 100 2 2 6 0 6 30)))
    = [NegZero; NegZero] /\
    dscr_list p = [NInf; NInf].
Proof.
  eexists. split; [vm_compute; reflexivity|]. split; reflexivity.
Qed.

Lemma percent_nonzero (s : Q) : ~ s == 0 -> ~ s / 100 == 0.
Proof.
  intros Hs E. apply Hs.
  assert (H : s / 100 * 100 == 0) by (rewrite E; ring).
  field_simplify in H. lra.
Qed.

Lemma equity_multiple_cons (c0 : num) (rest : list num) :
  equity_multiple (c0 :: rest) = Ok (fdiv (py_sum rest) (fneg c0)).
Proof.
  unfold equity_multiple.
  pose proof (py_index_nth (c0 :: rest) 0 c0 eq_refl) as E.
  change (Z.of_nat 0) with 0%Z in E. rewrite E. reflexivity.
Qed.

(** C6 (as stated).  A purchase price of 0 gives an equity of 0, which
    nothing rejects: the vector of line 104 is built and the multiple of
    line 106 is an infinity. *)
Lemma equity_zero_counterexample :
  in_widget_range (mkInputs 0 100 2 2 6 (6 # 10) 6 30) /\
  equity (mkInputs 0 100 2 2 6 (6 # 10) 6 30) ~= 0 /\
  exists v,
    cashflows (equity (mkInputs 0 100 2 2 6 (6 # 10) 6 30))
              [Fin 100; Fin 102] (Fin 1500) = Ok v /\
    equity_multiple v = Ok PInf.
Proof.
  split.
  - unfold in_widget_range, Qle. simpl. repeat split; lia.
  - split; [split; vm_compute; reflexivity|].
    eexists. split; [reflexivity|]. vm_compute. reflexivity.
Qed.

(** C6 (amended).  Neither the exit cap rate nor the equity is checked
    and no [InvalidInput] exists.  Line 96 is a Python division: for
    every exit cap rate the slider can produce, and for any non-zero one,
    [exit_value = final_noi / exit_cap]; a zero divisor raises
    [ZeroDivisionError].  Line 106 is a numpy division: with an equity of
    zero the multiple is an infinity or NaN, with a negative equity it is
    the quotient; nothing is raised. *)
Theorem exit_value_and_equity :
  (forall (i : Inputs) (noi_list : list num) (final_noi : num) (a : Q),
      in_widget_range i ->
      py_index noi_list (-1) = Ok final_noi -> final_noi ~= a ->
      exists ev,
        exit_value noi_list (exit_cap i) = Ok ev /\
        ev ~= a / (exit_cap_slider i / 100)) /\
  (forall (noi_list : list num) (final_noi cap : num) (a q : Q),
      py_index noi_list (-1) = Ok final_noi -> final_noi ~= a -> cap ~= q ->
      (~ q == 0 ->
       exists ev, exit_value noi_list cap = Ok ev /\ ev ~= a / q) /\
      (q == 0 -> exit_value noi_list cap = Raise ZeroDivisionError)) /\
  (forall (c0 : num) (rest : list num) (qs : list Q),
      c0 ~= 0 -> represents_all rest qs ->
      exists m, equity_multiple (c0 :: rest) = Ok m /\ finite m = false) /\
  (forall (c0 : num) (rest : list num) (e : Q) (qs : list Q),
      c0 ~= - e -> e < 0 -> represents_all rest qs ->
      exists m, equity_multiple (c0 :: rest) = Ok m /\ m ~= Qsum qs / e).
Proof.
  assert (Hgen : forall (noi_list : list num) (final_noi cap : num) (a q : Q),
      py_index noi_list (-1) = Ok final_noi -> final_noi ~= a -> cap ~= q ->
      (~ q == 0 ->
       exists ev, exit_value noi_list cap = Ok ev /\ ev ~= a / q) /\
      (q == 0 -> exit_value noi_list cap = Raise ZeroDivisionError)).
  { intros noi_list final_noi cap a q Hidx Ha Hq.
    unfold exit_value. rewrite Hidx. cbn [bind]. unfold py_truediv.
    split; intros Hq0.
    - rewrite (repr_nonzero _ _ Hq Hq0).
      eexists. split; [reflexivity | apply fdiv_repr; assumption].
    - rewrite (proj2 (repr_is_zero _ _ Hq) Hq0). reflexivity. }
  split; [|split; [exact Hgen|split]].
  - intros i noi_list final_noi a Hw Hidx Ha.
    destruct Hw as (_ & _ & (Hlo & _) & _).
    apply (Hgen noi_list final_noi (exit_cap i) a (exit_cap_slider i / 100)
                Hidx Ha (percent_repr _)).
    apply percent_nonzero. lra.
  - intros c0 rest qs Hc Hrest.
    rewrite equity_multiple_cons. eexists. split; [reflexivity|].
    assert (Hz : is_zero (fneg c0) = true).
    { apply (repr_is_zero _ _ (fneg_repr _ _ Hc)). ring. }
    rewrite fdiv_zero_divisor;
      [| apply (py_sum_repr _ _ Hrest) | exact Hz].
    destruct (is_zero (py_sum rest)); [reflexivity|].
    destruct (xorb _ _); reflexivity.
  - intros c0 rest e qs Hc He Hrest.
    rewrite equity_multiple_cons. eexists. split; [reflexivity|].
    apply fdiv_repr; [apply py_sum_repr; exact Hrest | | lra].
    eapply represents_comp; [reflexivity | | exact (fneg_repr _ _ Hc)].
    ring.
Qed.

Lemma exit_value_and_equity_witness :
  (exists ev,
      exit_value [Fin 100; Fin 102]
                 (exit_cap (mkInputs 1000 100 2 2 6 (6 # 10) 6 30)) = Ok ev /\
      ev ~= 102 / (6 / 100)) /\
  (exists m, equity_multiple (Fin 0 :: [Fin 100; Fin 102]) = Ok m /\
             finite m = false) /\
  (exists m, equity_multiple (Fin 400 :: [Fin 100; Fin 102]) = Ok m /\
             m ~= Qsum [100; 102] / - (400)).
Proof.
  destruct exit_value_and_equity as (H1 & _ & H3 & H4).
  split; [|split].
  - apply (H1 (mkInputs 1000 100 2 2 6 (6 # 10) 6 30) [Fin 100; Fin 102]
              (Fin 102) 102).
    + unfold in_widget_range, Qle. simpl. repeat split; lia.
    + reflexivity.
    + split; reflexivity.
  - apply (H3 (Fin 0) [Fin 100; Fin 102] [100; 102]).
    + split; reflexivity.
    + repeat (constructor; [split; reflexivity|]). constructor.
  - apply (H4 (Fin 400) [Fin 100; Fin 102] (- (400)) [100; 102]).
    + split; reflexivity.
    + reflexivity.
    + repeat (constructor; [split; reflexivity|]). constructor.
Defined.

(** ** IRR *)

(** C8.  The wrapper turns an exception into [None], which the tile shows
    as "N/A"; a NaN that the library returns is not an exception: it
    comes back as the IRR and the tile formats it as a percentage. *)
Theorem irr_nan_is_not_caught
        (npf_irr : list num -> outcome num) (cfs : list num) :
  npf_irr cfs = Ok NaN ->
  irr npf_irr cfs = Some NaN /\
  show_irr (irr npf_irr cfs) = Percent NaN /\
  show_irr (irr npf_irr cfs) <> NotAvailable /\
  (forall other, fails (other cfs) ->
                 show_irr (irr other cfs) = NotAvailable).
Proof.
  intros H. rewrite (irr_of_value _ _ _ H).
  split; [reflexivity|]. split; [reflexivity|]. split; [discriminate|].
  intros other Hf. rewrite (irr_of_failure _ _ Hf). reflexivity.
Qed.

Lemma irr_nan_is_not_caught_witness :
  irr (irr_answers NaN) [Fin (-400); Fin (-10); Fin (-20)] = Some NaN /\
  show_irr (irr (irr_answers NaN) [Fin (-400); Fin (-10); Fin (-20)])
  = Percent NaN /\
  show_irr (irr (irr_answers NaN) [Fin (-400); Fin (-10); Fin (-20)])
  <> NotAvailable /\
  (forall other, fails (other [Fin (-400); Fin (-10); Fin (-20)]) ->
                 show_irr (irr other [Fin (-400); Fin (-10); Fin (-20)])
                 = NotAvailable).
Proof.
  apply (irr_nan_is_not_caught (irr_answers NaN)
           [Fin (-400); Fin (-10); Fin (-20)]).
  reflexivity.
Defined.

(** * Further properties of the schedule loop *)

(** X1.  Within the amortization term every payment splits into a
    non-negative interest portion and a non-negative principal portion
    that add up to the payment, and the interest portion never grows from
    one period to the next. *)
Theorem payment_split (loan rate : num) (P r : Q) (n h : Z) :
  loan ~= P -> rate ~= r -> 0 <= P -> 0 <= r -> (0 < n)%Z ->
  exists sched p,
    sched = schedule_loop (Z.to_nat h) (pmt rate n (fneg loan)) rate loan /\
    forall i, (1 <= i <= Z.to_nat h)%nat -> (i <= Z.to_nat n)%nat ->
      exists rec I Pp,
        nth_error sched (i - 1) = Some rec /\
        payment rec ~= p /\ interest rec ~= I /\ principal rec ~= Pp /\
        I + Pp == p /\ 0 <= I /\ 0 <= Pp /\
        ((2 <= i)%nat ->
         exists prev I',
           nth_error sched (i - 2) = Some prev /\
           interest prev ~= I' /\ I <= I').
Proof.
  intros HP Hr HP0 Hr0 Hn.
  pose proof (line19_payment loan rate P r n HP Hr Hr0 Hn) as Hpay.
  set (pay := pmt rate n (fneg loan)) in *.
  set (p := annuity_payment P r n) in *.
  assert (Hcov : r * P <= p) by (apply annuity_covers_interest; assumption).
  exists (schedule_loop (Z.to_nat h) pay rate loan), p.
  split; [reflexivity|].
  intros i Hi Hin.
  destruct (schedule_record pay rate loan p r P (Z.to_nat h) i Hpay Hr HP Hi)
    as (rec & Hrec & Hpr & HI & HPp & _).
  exists rec, (bal_after (i - 1) p r P * r), (p - bal_after (i - 1) p r P * r).
  split; [exact Hrec|]. split; [rewrite Hpr; exact Hpay|].
  split; [exact HI|]. split; [exact HPp|]. split; [ring|].
  pose proof (bal_after_within_term P r n (i - 1) HP0 Hr0 Hn ltac:(lia)) as Hnn.
  pose proof (bal_after_le_principal p r P Hr0 Hcov (i - 1)) as Hle.
  fold p in Hnn.
  assert (Hmul : bal_after (i - 1) p r P * r <= P * r)
    by (apply Qmult_le_compat_r; assumption).
  split; [apply Qmult_le_0_compat; assumption|]. split; [lra|].
  intros Hi2.
  destruct (schedule_record pay rate loan p r P (Z.to_nat h) (i - 1)
              Hpay Hr HP ltac:(lia)) as (prev & Hprev & _ & HI' & _).
  replace (i - 1 - 1)%nat with (i - 2)%nat in * by lia.
  exists prev, (bal_after (i - 2) p r P * r).
  split; [exact Hprev|]. split; [exact HI'|].
  apply Qmult_le_compat_r; [|exact Hr0].
  replace (i - 1)%nat with (S (i - 2)) by lia.
  apply bal_after_step_le; assumption.
Qed.

Lemma payment_split_witness :
  exists sched p,
    sched = schedule_loop (Z.to_nat 2) (pmt (Fin (1 # 10)) 3 (fneg (Fin 100)))
                          (Fin (1 # 10)) (Fin 100) /\
    forall i, (1 <= i <= Z.to_nat 2)%nat -> (i <= Z.to_nat 3)%nat ->
      exists rec I Pp,
        nth_error sched (i - 1) = Some rec /\
        payment rec ~= p /\ interest rec ~= I /\ principal rec ~= Pp /\
        I + Pp == p /\ 0 <= I /\ 0 <= Pp /\
        ((2 <= i)%nat ->
         exists prev I',
           nth_error sched (i - 2) = Some prev /\
           interest prev ~= I' /\ I <= I').
Proof.
  apply (payment_split (Fin 100) (Fin (1 # 10)) 100 (1 # 10) 3 2).
  - split; reflexivity.
  - split; reflexivity.
  - unfold Qle. simpl. lia.
  - unfold Qle. simpl. lia.
  - reflexivity.
Defined.

(** X2.  Within the amortization term the principal portions of the
    periods reported so far and the balance recorded in the last of them
    add up to the loan amount. *)
Theorem principal_repaid (loan rate : num) (P r : Q) (n h : Z) :
  loan ~= P -> rate ~= r -> 0 <= P -> 0 <= r -> (0 < n)%Z ->
  (1 <= h <= n)%Z ->
  exists sched last qs b,
    sched = schedule_loop (Z.to_nat h) (pmt rate n (fneg loan)) rate loan /\
    represents_all (map principal sched) qs /\
    py_index sched (-1) = Ok last /\
    balance last ~= b /\
    Qsum qs + b == P.
Proof.
  intros HP Hr HP0 Hr0 Hn Hh.
  pose proof (line19_payment loan rate P r n HP Hr Hr0 Hn) as Hpay.
  set (pay := pmt rate n (fneg loan)) in *.
  set (p := annuity_payment P r n) in *.
  set (sched := schedule_loop (Z.to_nat h) pay rate loan) in *.
  destruct (principal_portions (Z.to_nat h) pay rate loan p r P Hpay Hr HP)
    as [Hfin Hsum].
  destruct (schedule_record pay rate loan p r P (Z.to_nat h) (Z.to_nat h)
              Hpay Hr HP ltac:(lia)) as (last & Hlast & _ & _ & _ & Hbal).
  pose proof (bal_after_within_term P r n (Z.to_nat h) HP0 Hr0 Hn ltac:(lia))
    as Hnn.
  fold p in Hnn. rewrite (floor0_id _ Hnn) in Hbal.
  exists sched, last, (map to_Q (map principal sched)),
         (bal_after (Z.to_nat h) p r P).
  split; [reflexivity|].
  split; [apply finite_represents_all; exact Hfin|].
  split.
  - apply py_index_last.
    replace (length sched) with (Z.to_nat h) by (symmetry; apply schedule_loop_length).
    exact Hlast.
  - split; [exact Hbal|]. fold sched in Hsum. rewrite Hsum. ring.
Qed.

Lemma principal_repaid_witness :
  exists sched last qs b,
    sched = schedule_loop (Z.to_nat 2) (pmt (Fin (1 # 10)) 3 (fneg (Fin 100)))
                          (Fin (1 # 10)) (Fin 100) /\
    represents_all (map principal sched) qs /\
    py_index sched (-1) = Ok last /\
    balance last ~= b /\
    Qsum qs + b == 100.
Proof.
  apply (principal_repaid (Fin 100) (Fin (1 # 10)) 100 (1 # 10) 3 2).
  - split; reflexivity.
  - split; reflexivity.
  - unfold Qle. simpl. lia.
  - unfold Qle. simpl. lia.
  - reflexivity.
  - lia.
Defined.

(** X3.  For a positive loan the balance recorded in any period before
    the end of the amortization term lies strictly between zero and the
    loan amount, and is strictly below the balance of the period
    before. *)
Theorem balance_strictly_between (loan rate : num) (P r : Q) (n h : Z) :
  loan ~= P -> rate ~= r -> 0 < P -> 0 <= r -> (0 < n)%Z ->
  exists sched,
    sched = schedule_loop (Z.to_nat h) (pmt rate n (fneg loan)) rate loan /\
    forall i, (1 <= i <= Z.to_nat h)%nat -> (i < Z.to_nat n)%nat ->
      exists rec b,
        nth_error sched (i - 1) = Some rec /\
        balance rec ~= b /\ 0 < b /\ b < P /\
        ((2 <= i)%nat ->
         exists prev b',
           nth_error sched (i - 2) = Some prev /\
           balance prev ~= b' /\ b < b').
Proof.
  intros HP Hr HP0 Hr0 Hn.
  pose proof (line19_payment loan rate P r n HP Hr Hr0 Hn) as Hpay.
  set (pay := pmt rate n (fneg loan)) in *.
  set (p := annuity_payment P r n) in *.
  assert (Hexc : r * P < p) by (apply annuity_exceeds_interest; assumption).
  assert (Hend : bal_after (Z.to_nat n) p r P == 0)
    by (apply bal_after_term; assumption).
  assert (Hpos : forall k, (k < Z.to_nat n)%nat -> 0 < bal_after k p r P).
  { intros k Hk. rewrite <- Hend.
    apply bal_after_strictly_antitone; assumption. }
  exists (schedule_loop (Z.to_nat h) pay rate loan).
  split; [reflexivity|].
  intros i Hi Hin.
  destruct (schedule_record pay rate loan p r P (Z.to_nat h) i Hpay Hr HP Hi)
    as (rec & Hrec & _ & _ & _ & Hbal).
  rewrite (floor0_id _ (Qlt_le_weak _ _ (Hpos i Hin))) in Hbal.
  exists rec, (bal_after i p r P).
  split; [exact Hrec|]. split; [exact Hbal|]. split; [apply Hpos; exact Hin|].
  split.
  - change P with (bal_after 0 p r P) at 2.
    apply bal_after_strictly_antitone; try assumption. lia.
  - intros Hi2.
    destruct (schedule_record pay rate loan p r P (Z.to_nat h) (i - 1)
                Hpay Hr HP ltac:(lia)) as (prev & Hprev & _ & _ & _ & Hbal').
    rewrite (floor0_id _ (Qlt_le_weak _ _ (Hpos (i - 1)%nat ltac:(lia))))
      in Hbal'.
    replace (i - 1 - 1)%nat with (i - 2)%nat in * by lia.
    exists prev, (bal_after (i - 1) p r P).
    split; [exact Hprev|]. split; [exact Hbal'|].
    apply bal_after_strictly_antitone; try assumption. lia.
Qed.

Lemma balance_strictly_between_witness :
  exists sched,
    sched = schedule_loop (Z.to_nat 2) (pmt (Fin (1 # 10)) 3 (fneg (Fin 100)))
                          (Fin (1 # 10)) (Fin 100) /\
    forall i, (1 <= i <= Z.to_nat 2)%nat -> (i < Z.to_nat 3)%nat ->
      exists rec b,
        nth_error sched (i - 1) = Some rec /\
        balance rec ~= b /\ 0 < b /\ b < 100 /\
        ((2 <= i)%nat ->
         exists prev b',
           nth_error sched (i - 2) = Some prev /\
           balance prev ~= b' /\ b < b').
Proof.
  apply (balance_strictly_between (Fin 100) (Fin (1 # 10)) 100 (1 # 10) 3 2).
  - split; reflexivity.
  - split; reflexivity.
  - reflexivity.
  - unfold Qle. simpl. lia.
  - reflexivity.
Defined.

(** X5.  With a rate of zero the payment is [P / n], no interest is
    charged, and the balance falls by one payment per period:
    [balance[i] = P - i * P / n] up to the end of the term. *)
Theorem zero_rate_schedule (loan rate : num) (P r : Q) (n h : Z) :
  loan ~= P -> rate ~= r -> 0 <= P -> r == 0 -> (0 < n)%Z ->
  exists sched,
    sched = schedule_loop (Z.to_nat h) (pmt rate n (fneg loan)) rate loan /\
    forall i, (1 <= i <= Z.to_nat h)%nat -> (i <= Z.to_nat n)%nat ->
      exists rec,
        nth_error sched (i - 1) = Some rec /\
        payment rec ~= P / inject_Z n /\
        interest rec ~= 0 /\
        principal rec ~= P / inject_Z n /\
        balance rec ~= P - inject_Z (Z.of_nat i) * (P / inject_Z n).
Proof.
  intros HP Hr HP0 Hr0 Hn.
  assert (Hr0' : 0 <= r) by lra.
  pose proof (line19_payment loan rate P r n HP Hr Hr0' Hn) as Hpay.
  set (pay := pmt rate n (fneg loan)) in *.
  assert (Ep : annuity_payment P r n = P / inject_Z n).
  { unfold annuity_payment. rewrite (proj2 (Qeq_bool_iff r 0) Hr0). reflexivity. }
  pose proof (bal_after_within_term P r n) as Hnn.
  rewrite Ep in Hpay, Hnn.
  set (p := P / inject_Z n) in *.
  exists (schedule_loop (Z.to_nat h) pay rate loan).
  split; [reflexivity|].
  intros i Hi Hin.
  destruct (schedule_record pay rate loan p r P (Z.to_nat h) i Hpay Hr HP Hi)
    as (rec & Hrec & Hpr & HI & HPp & Hbal).
  exists rec. split; [exact Hrec|]. split; [rewrite Hpr; exact Hpay|].
  split; [|split].
  - eapply represents_comp; [reflexivity | | exact HI]. rewrite Hr0. ring.
  - eapply represents_comp; [reflexivity | | exact HPp]. rewrite Hr0. ring.
  - rewrite (floor0_id _ (Hnn i HP0 Hr0' Hn Hin)) in Hbal.
    eapply represents_comp; [reflexivity | | exact Hbal].
    symmetry. apply bal_after_zero_rate. exact Hr0.
Qed.

Lemma zero_rate_schedule_witness :
  exists sched,
    sched = schedule_loop (Z.to_nat 3) (pmt (Fin 0) 4 (fneg (Fin 100)))
                          (Fin 0) (Fin 100) /\
    forall i, (1 <= i <= Z.to_nat 3)%nat -> (i <= Z.to_nat 4)%nat ->
      exists rec,
        nth_error sched (i - 1) = Some rec /\
        payment rec ~= 100 / inject_Z 4 /\
        interest rec ~= 0 /\
        principal rec ~= 100 / inject_Z 4 /\
        balance rec ~= 100 - inject_Z (Z.of_nat i) * (100 / inject_Z 4).
Proof.
  apply (zero_rate_schedule (Fin 100) (Fin 0) 100 0 4 3).
  - split; reflexivity.
  - split; reflexivity.
  - unfold Qle. simpl. lia.
  - reflexivity.
  - reflexivity.
Defined.

(** X6.  For a positive rate the balance recorded after period [i] of the
    term is the outstanding-balance formula
    [P * ((1+r)^n - (1+r)^i) / ((1+r)^n - 1)]. *)
Theorem outstanding_balance (loan rate : num) (P r : Q) (n h : Z) :
  loan ~= P -> rate ~= r -> 0 <= P -> 0 < r -> (0 < n)%Z ->
  exists sched,
    sched = schedule_loop (Z.to_nat h) (pmt rate n (fneg loan)) rate loan /\
    forall i, (1 <= i <= Z.to_nat h)%nat -> (i <= Z.to_nat n)%nat ->
      exists rec,
        nth_error sched (i - 1) = Some rec /\
        balance rec ~= P * ((1 + r) ^ n - (1 + r) ^ Z.of_nat i)
                       / ((1 + r) ^ n - 1).
Proof.
  intros HP Hr HP0 Hr0 Hn.
  assert (Hr0' : 0 <= r) by lra.
  pose proof (line19_payment loan rate P r n HP Hr Hr0' Hn) as Hpay.
  set (pay := pmt rate n (fneg loan)) in *.
  pose proof (bal_after_within_term P r n) as Hnn.
  set (p := annuity_payment P r n) in *.
  exists (schedule_loop (Z.to_nat h) pay rate loan).
  split; [reflexivity|].
  intros i Hi Hin.
  destruct (schedule_record pay rate loan p r P (Z.to_nat h) i Hpay Hr HP Hi)
    as (rec & Hrec & _ & _ & _ & Hbal).
  exists rec. split; [exact Hrec|].
  rewrite (floor0_id _ (Hnn i HP0 Hr0' Hn Hin)) in Hbal.
  eapply represents_comp; [reflexivity | | exact Hbal].
  pose proof (growth_factor_gt_1 r n Hr0 Hn) as Ht.
  assert (Hrne : ~ r == 0) by lra.
  apply (Qmult_inj_l _ _ r Hrne).
  rewrite bal_after_closed.
  unfold p, annuity_payment.
  rewrite (proj2 (Qeq_bool_false r 0) Hrne), Qpower_opp.
  set (t := (1 + r) ^ n) in *.
  set (u := (1 + r) ^ Z.of_nat i).
  field. repeat split; lra.
Qed.

Lemma outstanding_balance_witness :
  exists sched,
    sched = schedule_loop (Z.to_nat 2) (pmt (Fin (1 # 10)) 3 (fneg (Fin 100)))
                          (Fin (1 # 10)) (Fin 100) /\
    forall i, (1 <= i <= Z.to_nat 2)%nat -> (i <= Z.to_nat 3)%nat ->
      exists rec,
        nth_error sched (i - 1) = Some rec /\
        balance rec ~= 100 * ((1 + (1 # 10)) ^ 3 - (1 + (1 # 10)) ^ Z.of_nat i)
                       / ((1 + (1 # 10)) ^ 3 - 1).
Proof.
  apply (outstanding_balance (Fin 100) (Fin (1 # 10)) 100 (1 # 10) 3 2).
  - split; reflexivity.
  - split; reflexivity.
  - unfold Qle. simpl. lia.
  - reflexivity.
  - reflexivity.
Defined.

(** X16.  A loan of zero (an LTV of zero) gives a schedule of zeros: for
    rate [>= 0] and term [> 0] every record has a payment, an interest
    portion, a principal portion and a balance of zero. *)
Theorem zero_loan_schedule (loan rate : num) (P r : Q) (n h : Z) :
  loan ~= P -> rate ~= r -> P == 0 -> 0 <= r -> (0 < n)%Z ->
  exists sched,
    sched = schedule_loop (Z.to_nat h) (pmt rate n (fneg loan)) rate loan /\
    length sched = Z.to_nat h /\
    forall rec, In rec sched ->
      payment rec ~= 0 /\ interest rec ~= 0 /\
      principal rec ~= 0 /\ balance rec ~= 0.
Proof.
  intros HP Hr HP0 Hr0 Hn.
  pose proof (line19_payment loan rate P r n HP Hr Hr0 Hn) as Hpay.
  set (pay := pmt rate n (fneg loan)) in *.
  set (p := annuity_payment P r n) in *.
  assert (Hp0 : p == 0) by (apply annuity_payment_zero_loan; exact HP0).
  eexists. split; [reflexivity|]. split; [apply schedule_loop_length|].
  intros rec Hin. apply In_nth_error in Hin. destruct Hin as [j Hj].
  assert (Hlt : (j < Z.to_nat h)%nat).
  { rewrite <- (schedule_loop_length (Z.to_nat h) pay rate loan).
    apply nth_error_Some. congruence. }
  destruct (schedule_record pay rate loan p r P (Z.to_nat h) (S j) Hpay Hr HP
              ltac:(lia)) as (rec' & Hrec & Hpr & HI & HPp & Hbal).
  replace (S j - 1)%nat with j in * by lia.
  rewrite Hj in Hrec. injection Hrec as <-.
  pose proof (bal_after_zero_loan j p r P Hp0 HP0) as Hb.
  pose proof (bal_after_zero_loan (S j) p r P Hp0 HP0) as Hb'.
  split; [rewrite Hpr, <- Hp0; exact Hpay|].
  split; [eapply represents_comp; [reflexivity | | exact HI];
          rewrite Hb; ring|].
  split; [eapply represents_comp; [reflexivity | | exact HPp];
          rewrite Hb, Hp0; ring|].
  eapply represents_comp; [reflexivity | | exact Hbal].
  rewrite Hb'. reflexivity.
Qed.

Lemma zero_loan_schedule_witness :
  exists sched,
    sched = schedule_loop (Z.to_nat 2)
              (pmt (Fin (6 # 100)) 30 (fneg (Fin 0))) (Fin (6 # 100)) (Fin 0) /\
    length sched = Z.to_nat 2 /\
    forall rec, In rec sched ->
      payment rec ~= 0 /\ interest rec ~= 0 /\
      principal rec ~= 0 /\ balance rec ~= 0.
Proof.
  apply (zero_loan_schedule (Fin 0) (Fin (6 # 100)) 0 (6 # 100) 30 2).
  - split; reflexivity.
  - split; reflexivity.
  - reflexivity.
  - unfold Qle. simpl. lia.
  - reflexivity.
Defined.

(** X18.  The number of periods only decides how many records are built:
    the records of a shorter run of the loop are the first records of a
    longer run from the same payment, rate and balance. *)
Theorem shorter_horizon_is_prefix (pay rate loan : num) (h h' : Z) :
  (h <= h')%Z ->
  schedule_loop (Z.to_nat h) pay rate loan
  = firstn (Z.to_nat h) (schedule_loop (Z.to_nat h') pay rate loan).
Proof.
  intros Hh.
  assert (Hle : (Z.to_nat h <= Z.to_nat h')%nat) by lia.
  generalize dependent (Z.to_nat h'). generalize (Z.to_nat h). clear.
  intros k. revert loan.
  induction k as [|k IH]; intros loan m Hkm; [reflexivity|].
  destruct m as [|m]; [lia|].
  cbn [schedule_loop firstn]. rewrite <- IH by lia. reflexivity.
Qed.

Lemma shorter_horizon_is_prefix_witness :
  schedule_loop (Z.to_nat 2) (Fin 40) (Fin (1 # 10)) (Fin 100)
  = firstn (Z.to_nat 2)
           (schedule_loop (Z.to_nat 3) (Fin 40) (Fin (1 # 10)) (Fin 100)).
Proof.
  apply (shorter_horizon_is_prefix (Fin 40) (Fin (1 # 10)) (Fin 100) 2 3). lia.
Defined.

(** * Further properties of the script's statements *)

Lemma loan_amount_repr (i : Inputs) :
  loan_amount i ~= purchase_price i * ltv i.
Proof. apply fmul_repr; apply Fin_repr. Qed.

Lemma equity_repr (i : Inputs) :
  equity i ~= purchase_price i - purchase_price i * ltv i.
Proof. apply fsub_repr; [apply Fin_repr | apply loan_amount_repr]. Qed.

(** X11.  Loan and equity add up to the purchase price.  For a positive
    price and a loan-to-value ratio below one the equity is positive,
    and the vector built at line 104 from any yearly cash flows starts
    with a strictly negative entry, [-equity]. *)
Theorem equity_outflow (i : Inputs) (cf : list num) (nsp : num) :
  0 < purchase_price i -> ltv i < 1 -> (1 <= length cf)%nat ->
  exists L e v c0,
    loan_amount i ~= L /\ equity i ~= e /\
    L + e == purchase_price i /\ 0 < e /\
    cashflows (equity i) cf nsp = Ok v /\
    length v = S (length cf) /\
    nth_error v 0 = Some c0 /\ c0 ~= - e /\ - e < 0.
Proof.
  intros Hpp Hltv Hlen.
  destruct (exists_last (l := cf)) as (init & lst & ->).
  { intros ->. simpl in Hlen. lia. }
  exists (purchase_price i * ltv i),
         (purchase_price i - purchase_price i * ltv i).
  eexists. eexists.
  split; [apply loan_amount_repr|]. split; [apply equity_repr|].
  split; [ring|]. split; [nra|].
  split; [apply cashflows_snoc|].
  split; [cbn [length]; rewrite !length_app; simpl; lia|].
  split; [reflexivity|].
  split; [apply fneg_repr; apply equity_repr | nra].
Qed.

Lemma equity_outflow_witness :
  exists L e v c0,
    loan_amount (mkInputs 1000 100 2 2 6 (6 # 10) 6 30) ~= L /\
    equity (mkInputs 1000 100 2 2 6 (6 # 10) 6 30) ~= e /\
    L + e == purchase_price (mkInputs 1000 100 2 2 6 (6 # 10) 6 30) /\
    0 < e /\
    cashflows (equity (mkInputs 1000 100 2 2 6 (6 # 10) 6 30))
              [Fin 20; Fin 30] (Fin 500) = Ok v /\
    length v = S (length [Fin 20; Fin 30]) /\
    nth_error v 0 = Some c0 /\ c0 ~= - e /\ - e < 0.
Proof.
  apply (equity_outflow (mkInputs 1000 100 2 2 6 (6 # 10) 6 30)
           [Fin 20; Fin 30] (Fin 500)).
  - reflexivity.
  - reflexivity.
  - simpl. lia.
Defined.

(** X12.  The multiple of the vector built at line 104 is the sum of the
    yearly cash flows plus the net sale proceeds, over the equity. *)
Theorem equity_multiple_composed (eq0 : num) (cf : list num) (nsp : num)
        (e s : Q) (qs : list Q) :
  eq0 ~= e -> ~ e == 0 -> represents_all cf qs -> nsp ~= s ->
  (1 <= length cf)%nat ->
  exists v m,
    cashflows eq0 cf nsp = Ok v /\
    equity_multiple v = Ok m /\
    m ~= (Qsum qs + s) / e.
Proof.
  intros He He0 Hcf Hs Hlen.
  destruct (exists_last (l := cf)) as (init & lst & ->).
  { intros ->. simpl in Hlen. lia. }
  unfold represents_all in Hcf.
  apply Forall2_app_inv_l in Hcf.
  destruct Hcf as (qinit & qlast & Hinit & Hlast & ->).
  destruct qlast as [|ql [|? ?]];
    try (inversion Hlast; match goal with H : Forall2 _ _ _ |- _ =>
                                            inversion H end; fail).
  apply Forall2_cons_iff in Hlast. destruct Hlast as [Hl _].
  rewrite cashflows_snoc.
  eexists. eexists. split; [reflexivity|].
  rewrite equity_multiple_cons. split; [reflexivity|].
  assert (Hrest : represents_all (init ++ [fadd lst nsp]) (qinit ++ [ql + s])).
  { apply Forall2_app; [exact Hinit|].
    constructor; [apply fadd_repr; assumption | constructor]. }
  assert (Hden : fneg (fneg eq0) ~= e).
  { eapply represents_comp;
      [reflexivity | | exact (fneg_repr _ _ (fneg_repr _ _ He))].
    ring. }
  pose proof (fdiv_repr _ _ _ _ (py_sum_repr _ _ Hrest) Hden He0) as H.
  eapply represents_comp; [reflexivity | | exact H].
  rewrite !Qsum_app. unfold Qsum at 2 4. cbn [fold_right].
  set (A := Qsum qinit). field. exact He0.
Qed.

Lemma equity_multiple_composed_witness :
  exists v m,
    cashflows (Fin 400) [Fin 20; Fin 30] (Fin 500) = Ok v /\
    equity_multiple v = Ok m /\
    m ~= (Qsum [20; 30] + 500) / 400.
Proof.
  apply (equity_multiple_composed (Fin 400) [Fin 20; Fin 30] (Fin 500)
           400 500 [20; 30]).
  - split; reflexivity.
  - unfold Qeq. simpl. lia.
  - repeat (constructor; [split; reflexivity|]). constructor.
  - split; reflexivity.
  - simpl. lia.
Defined.

(** X13.  With a non-negative year-1 NOI and non-negative growth the NOI
    entries the loop appends never fall from one year to the next, and
    neither do the cash flows whenever the two years carry the same
    payment. *)
Theorem series_nondecreasing (noi1 g : Q) (growth : num)
        (schedule : list PeriodRecord) (h : nat) :
  growth ~= g -> 0 <= noi1 -> 0 <= g -> (h <= length schedule)%nat ->
  exists p,
    project (Fin noi1) growth schedule (py_range 1 (Z.of_nat h + 1)) = Ok p /\
    forall k, (1 <= k < h)%nat ->
      exists x x' a a',
        nth_error (noi_list p) (k - 1) = Some x /\
        nth_error (noi_list p) k = Some x' /\
        x ~= a /\ x' ~= a' /\ a <= a' /\
        forall rec rec' d,
          nth_error schedule (k - 1) = Some rec ->
          nth_error schedule k = Some rec' ->
          payment rec ~= d -> payment rec' ~= d ->
          exists c c' u u',
            nth_error (cf_list p) (k - 1) = Some c /\
            nth_error (cf_list p) k = Some c' /\
            c ~= u /\ c' ~= u' /\ u <= u'.
Proof.
  intros Hg H1 Hg0 Hh.
  destruct (project_projected noi1 g growth schedule Hg h Hh)
    as (p & Ep & _ & _ & _ & _ & _ & Hrows).
  exists p. split; [exact Ep|].
  intros k Hk.
  destruct (Hrows (k - 1)%nat ltac:(lia))
    as (x & rec0 & Hx & Hrec0 & Hcf & _ & Hxr & _).
  destruct (Hrows k ltac:(lia))
    as (x' & rec1 & Hx' & Hrec1 & Hcf' & _ & Hxr' & _).
  set (a := noi1 * (1 + g) ^ Z.of_nat (k - 1)) in *.
  set (a' := noi1 * (1 + g) ^ Z.of_nat k) in *.
  assert (Hstep : a <= a').
  { unfold a, a'. replace k with (S (k - 1)) at 2 by lia.
    rewrite Qpower_nat_S.
    assert (0 <= noi1 * (1 + g) ^ Z.of_nat (k - 1)).
    { apply Qmult_le_0_compat; [exact H1|]. apply Qpower_0_le. lra. }
    nra. }
  exists x, x', a, a'.
  split; [exact Hx|]. split; [exact Hx'|].
  split; [exact Hxr|]. split; [exact Hxr'|]. split; [exact Hstep|].
  intros rec rec' d Hr Hr' Hd Hd'.
  rewrite Hrec0 in Hr. injection Hr as <-.
  rewrite Hrec1 in Hr'. injection Hr' as <-.
  exists (fsub x (payment rec0)), (fsub x' (payment rec1)), (a - d), (a' - d).
  split; [exact Hcf|]. split; [exact Hcf'|].
  split; [apply fsub_repr; assumption|].
  split; [apply fsub_repr; assumption | lra].
Qed.

Lemma series_nondecreasing_witness :
  exists p,
    project (Fin 100) (Fin (2 # 100))
            (schedule_loop 2 (Fin 10) (Fin (1 # 10)) (Fin 100))
            (py_range 1 (Z.of_nat 2 + 1)) = Ok p /\
    forall k, (1 <= k < 2)%nat ->
      exists x x' a a',
        nth_error (noi_list p) (k - 1) = Some x /\
        nth_error (noi_list p) k = Some x' /\
        x ~= a /\ x' ~= a' /\ a <= a' /\
        forall rec rec' d,
          nth_error (schedule_loop 2 (Fin 10) (Fin (1 # 10)) (Fin 100)) (k - 1)
          = Some rec ->
          nth_error (schedule_loop 2 (Fin 10) (Fin (1 # 10)) (Fin 100)) k
          = Some rec' ->
          payment rec ~= d -> payment rec' ~= d ->
          exists c c' u u',
            nth_error (cf_list p) (k - 1) = Some c /\
            nth_error (cf_list p) k = Some c' /\
            c ~= u /\ c' ~= u' /\ u <= u'.
Proof.
  apply (series_nondecreasing 100 (2 # 100) (Fin (2 # 100))
           (schedule_loop 2 (Fin 10) (Fin (1 # 10)) (Fin 100)) 2).
  - split; reflexivity.
  - unfold Qle. simpl. lia.
  - unfold Qle. simpl. lia.
  - simpl. lia.
Defined.

(** * The file as shipped *)

(** X20.  The file cannot be compiled: line 19 starts at column 0 and
    closes the body of [amortization_schedule], so the indented line 21
    is an unexpected indent; every run of the file stops there with
    [IndentationError], before any statement is executed.  With line 19
    moved to column 4 the layout compiles. *)
Theorem shipped_file_does_not_compile :
  indentation_error [0%nat] false app_py_layout = Some 21%Z /\
  (forall (npf_irr : list num -> outcome num) (i : Inputs),
      app_py npf_irr i = Raise IndentationError) /\
  python_compile (move_line 19 4 app_py_layout) = Ok tt.
Proof.
  split; [reflexivity|]. split; [|reflexivity].
  intros npf_irr i. unfold app_py.
  change (python_compile app_py_layout) with (@Raise unit IndentationError).
  reflexivity.
Qed.
